(** * The affine transform layer of the NNUE evaluation function

    A shallow embedding of [src/nnue/layers/affine_transform.h]: the class
    template [AffineTransform<PreviousLayer, OutputDimensions>] with its
    compile-time constants, its hash, its parameter reader and its four
    forward-propagation kernels (AVX2, SSSE3, NEON and the portable loop).

    Conventions of the embedding.
    - Dimensions and array indices ([IndexType]) are [nat]; integer values
      and addresses are [Z], with the wrap-around of every fixed-width
      operation written out ([uint32], [wrap32], [wrap16], [sat16]).
    - A byte is [Byte.byte]; [u8] and [s8] are its readings as
      [std::uint8_t] and [std::int8_t].
    - [biases_] and [weights_] are kept as the bytes that
      [reinterpret_cast<char*>] exposes to [std::istream::read]; [biases_[i]]
      reads four of them, least significant first (all three vector targets
      are little-endian).
    - The scratch buffer lives in a byte-addressed memory, a finite map from
      addresses to bytes; an access outside the mapped addresses, or outside
      an array, yields [None].
    - A vector register is the list of its lanes: bytes for 8-bit lanes,
      integers for 16- and 32-bit lanes. *)

From Stdlib Require Import ZArith Lia.
From Stdlib Require Import Strings.Byte Strings.Ascii.
From stdpp Require Import base option list gmap strings pretty.

Open Scope Z_scope.

(** ** Fixed-width integers *)

Definition uint32 (z : Z) : Z := z mod 2 ^ 32.

Definition wrap32 (z : Z) : Z := (z + 2 ^ 31) mod 2 ^ 32 - 2 ^ 31.

Definition wrap16 (z : Z) : Z := (z + 2 ^ 15) mod 2 ^ 16 - 2 ^ 15.

(** Signed saturation to 16 bits, as [pmaddubsw] performs it. *)
Definition sat16 (z : Z) : Z := Z.max (- 2 ^ 15) (Z.min (2 ^ 15 - 1) z).

Definition u8 (b : byte) : Z := Z.of_N (Byte.to_N b).

Definition s8 (b : byte) : Z := if u8 b <? 128 then u8 b else u8 b - 256.

Definition byte_of_Z (z : Z) : byte :=
  default x00 (Byte.of_N (Z.to_N (z mod 256))).

(** Object representation of an [int32_t], least significant byte first. *)
Definition bytes_of_int32 (z : Z) : list byte :=
  [byte_of_Z z; byte_of_Z (z / 2 ^ 8); byte_of_Z (z / 2 ^ 16);
   byte_of_Z (z / 2 ^ 24)].

Definition int32_of_bytes (bs : list byte) : Z :=
  match bs with
  | [b0; b1; b2; b3] =>
      wrap32 (u8 b0 + 2 ^ 8 * u8 b1 + 2 ^ 16 * u8 b2 + 2 ^ 24 * u8 b3)
  | _ => 0
  end.

Inductive ctype := uint8_t | int8_t | int32_t.

Definition sizeof (c : ctype) : nat :=
  match c with uint8_t | int8_t => 1 | int32_t => 4 end.

(** What a 32-bit hash [h] contributes to the hash of the layer above:
    [(h >> 1) ^ (h << 31)], its bits rotated right by one. *)
Definition rotated (h : Z) : Z :=
  Z.lxor (Z.shiftr h 1) (uint32 (Z.shiftl h 31)).

(** ** Sums *)

(** The sum of the lanes of a register. *)
Fixpoint lsum (l : list Z) : Z :=
  match l with
  | [] => 0
  | x :: t => x + lsum t
  end.

(** [w 0 * x 0 + ... + w (n - 1) * x (n - 1)]. *)
Fixpoint weighted_sum (w x : nat → Z) (n : nat) : Z :=
  match n with
  | O => 0
  | S n' => weighted_sum w x n' + w n' * x n'
  end.

(** ** Control: the option monad carries out-of-bounds accesses *)

(** [for (IndexType i = 0; i < n; ++i) body]: the state after the first
    [n] iterations. *)
Fixpoint for_loop {St : Type} (n : nat) (body : nat → St → option St)
    (s : St) : option St :=
  match n with
  | O => Some s
  | S n' => s' ← for_loop n' body s; body n' s'
  end.

(** [count] consecutive bytes starting at index [start], read through the
    accessor [at_]. *)
Definition load_bytes (at_ : nat → option byte) (start count : nat)
    : option (list byte) :=
  mapM at_ (seq start count).

(** ** Memory *)

Abbreviation mem := (gmap Z byte).

Definition store_byte (m : mem) (a : Z) (b : byte) : option mem :=
  match m !! a with
  | Some _ => Some (<[a := b]> m)
  | None => None
  end.

Fixpoint store_bytes (m : mem) (a : Z) (bs : list byte) : option mem :=
  match bs with
  | [] => Some m
  | b :: bs' => m' ← store_byte m a b; store_bytes m' (a + 1) bs'
  end.

Definition store_int32 (m : mem) (a : Z) (v : Z) : option mem :=
  store_bytes m a (bytes_of_int32 v).

Definition load_int32 (m : mem) (a : Z) : option Z :=
  bs ← load_bytes (λ t, m !! (a + Z.of_nat t)) 0 4;
  Some (int32_of_bytes bs).

(** ** [std::istream], as far as [read] and [fail] go *)

Module istream.

(** What the source delivers once its bytes are used up. *)
Inductive underflow := end_of_file | device_error.

Record t := {
  pending : list byte;
  at_end : underflow;
  eofbit : bool;
  failbit : bool;
  badbit : bool
}.

Definition good (s : t) : bool := negb (eofbit s || failbit s || badbit s).

Definition fail (s : t) : bool := failbit s || badbit s.

(** The characters extracted go to successive locations of the array. *)
Definition store (got dst : list byte) : list byte :=
  got ++ drop (length got) dst.

(** [read(dst, count)]: with the stream not good, [failbit] is set and
    nothing is extracted; otherwise characters are extracted and stored
    until [count] of them are, or the source ends, which sets
    [eofbit | failbit], or breaks, which sets [badbit]. *)
Definition read (s : t) (dst : list byte) (count : nat) : t * list byte :=
  if good s then
    if decide (count ≤ length (pending s))%nat then
      ({| pending := drop count (pending s); at_end := at_end s;
          eofbit := false; failbit := false; badbit := false |},
       store (take count (pending s)) dst)
    else
      match at_end s with
      | end_of_file =>
          ({| pending := []; at_end := at_end s;
              eofbit := true; failbit := true; badbit := false |},
           store (pending s) dst)
      | device_error =>
          ({| pending := []; at_end := at_end s;
              eofbit := false; failbit := false; badbit := true |},
           store (pending s) dst)
      end
  else
    ({| pending := pending s; at_end := at_end s;
        eofbit := eofbit s; failbit := true; badbit := badbit s |},
     dst).

End istream.

(** ** [nnue_common.h] *)

(** The build-time choice of kernel: [USE_AVX2], [USE_SSSE3], [IS_ARM], or
    none of them. *)
Inductive Kernel := AVX2 | SSSE3 | NEON | Portable.

(** Modelled from the spec: [kCacheLineSize], declared in [nnue_common.h],
    which is not among the sources; the spec names it only as the cache
    line size, so it is a parameter of the development. *)
Class NnueCommon := { kCacheLineSize : nat }.

(** Modelled from the spec: [kSimdWidth], declared in [nnue_common.h], the
    vector width in bytes of the selected kernel. It is the number of input
    bytes one iteration of the kernel's chunk loop consumes: one [__m256i],
    one [__m128i], two [int8x8_t]. *)
Definition kSimdWidth (k : Kernel) : nat :=
  match k with
  | AVX2 => 32
  | SSSE3 => 16
  | NEON => 16
  | Portable => 1
  end.

(** Modelled from the spec: [kMaxSimdWidth], declared in [nnue_common.h],
    the widest SIMD vector among the supported kernels. *)
Definition kMaxSimdWidth : nat :=
  foldr (λ k w, (kSimdWidth k `max` w)%nat) 0%nat [AVX2; SSSE3; NEON; Portable].

(** Modelled from the spec: [CeilToMultiple], declared in [nnue_common.h],
    rounds [n] up to the next multiple of [base]. *)
Definition CeilToMultiple (n base : nat) : nat :=
  ((n + base - 1) / base * base)%nat.

(** ** The contract a layer offers to the layer above it *)

Module Layer.

Class t (L : Type) := {
  OutputType : ctype;
  kOutputDimensions : nat;
  kBufferSize : nat;
  GetHashValue : Z;
  (** Returns the result, the layer with what was read, and the stream. *)
  ReadParameters : L → istream.t → bool * L * istream.t;
  (** Takes [transformed_features] and [buffer]; returns the address of
      the layer's output and the memory after the call. *)
  Propagate : L → Z → Z → mem → option (Z * mem)
}.

End Layer.

(** ** Vector intrinsics *)

Module Intrinsics.

(** Adjacent lanes, two by two. *)
Fixpoint pairs {A : Type} (l : list A) : list (A * A) :=
  match l with
  | a :: b :: t => (a, b) :: pairs t
  | _ => []
  end.

(** Horizontal add of adjacent lanes, each sum narrowed by [narrow]. *)
Definition hadd_pairs (narrow : Z → Z) (l : list Z) : list Z :=
  (λ '(p, q), narrow (p + q)) <$> pairs l.

(** Loads: [at_] reads the array the pointer points into, [start] is the
    byte index the pointer stands at. *)
Definition _mm256_load_si256 (at_ : nat → option byte) (start : nat) :=
  load_bytes at_ start 32.

Definition _mm_load_si128 (at_ : nat → option byte) (start : nat) :=
  load_bytes at_ start 16.

Definition load_int8x8_t (at_ : nat → option byte) (start : nat) :=
  load_bytes at_ start 8.

Definition _mm256_set1_epi16 (a : Z) : list Z := replicate 16 a.

Definition _mm_set1_epi16 (a : Z) : list Z := replicate 8 a.

Definition _mm256_set_epi32 (e7 e6 e5 e4 e3 e2 e1 e0 : Z) : list Z :=
  [e0; e1; e2; e3; e4; e5; e6; e7].

Definition _mm_cvtsi32_si128 (a : Z) : list Z := [a; 0; 0; 0].

(** Unsigned bytes of [a] times signed bytes of [b]; adjacent products
    are added with signed saturation to 16 bits. *)
Definition maddubs_epi16 (a b : list byte) : list Z :=
  hadd_pairs sat16 (zip_with (λ x y, u8 x * s8 y) a b).

Definition _mm256_maddubs_epi16 := maddubs_epi16.
Definition _mm_maddubs_epi16 := maddubs_epi16.

(** Signed 16-bit lanes multiplied; adjacent products are added into
    32-bit lanes. *)
Definition madd_epi16 (a b : list Z) : list Z :=
  hadd_pairs wrap32 (zip_with Z.mul a b).

Definition _mm256_madd_epi16 := madd_epi16.
Definition _mm_madd_epi16 := madd_epi16.

Definition add_epi32 (a b : list Z) : list Z :=
  zip_with (λ x y, wrap32 (x + y)) a b.

Definition _mm256_add_epi32 := add_epi32.
Definition _mm_add_epi32 := add_epi32.

Definition _mm_hadd_epi32 (a b : list Z) : list Z :=
  hadd_pairs wrap32 a ++ hadd_pairs wrap32 b.

(** The 256-bit form works on the two 128-bit halves separately. *)
Definition _mm256_hadd_epi32 (a b : list Z) : list Z :=
  _mm_hadd_epi32 (take 4 a) (take 4 b) ++
  _mm_hadd_epi32 (drop 4 a) (drop 4 b).

Definition _mm256_extracti128_si256 (a : list Z) (imm8 : nat) : list Z :=
  match imm8 with
  | O => take 4 a
  | _ => drop 4 a
  end.

Definition lane (a : list Z) (k : nat) : Z := default 0 (a !! k).

Definition _mm_cvtsi128_si32 (a : list Z) : Z := lane a 0.

(** [int32x4_t sum = {b}]: the remaining lanes are zero. *)
Definition int32x4_init (b : Z) : list Z := [b; 0; 0; 0].

(** Signed bytes multiplied into 16-bit lanes. *)
Definition vmull_s8 (a b : list byte) : list Z :=
  zip_with (λ x y, s8 x * s8 y) a b.

(** Multiply-accumulate in 16-bit lanes. *)
Definition vmlal_s8 (acc : list Z) (a b : list byte) : list Z :=
  zip_with (λ c p, wrap16 (c + p)) acc (vmull_s8 a b).

(** Adjacent 16-bit lanes of [b] are added and accumulated into the
    32-bit lanes of [a]. *)
Definition vpadalq_s16 (a b : list Z) : list Z :=
  zip_with (λ x y, wrap32 (x + y)) a (hadd_pairs id b).

End Intrinsics.

(** ** [AffineTransform<PreviousLayer, OutputDimensions>] *)

Module AffineTransform.
Import Intrinsics.

Section AffineTransform.

Context `{NnueCommon}.
Context (PreviousLayer : Type) `{!Layer.t PreviousLayer}.
Context (OutputDimensions : nat).

Definition InputType : ctype := Layer.OutputType (L := PreviousLayer).
Definition OutputType : ctype := int32_t.
Definition BiasType : ctype := OutputType.
Definition WeightType : ctype := int8_t.

Definition kInputDimensions : nat :=
  Layer.kOutputDimensions (L := PreviousLayer).

Definition kOutputDimensions : nat := OutputDimensions.

Definition kPaddedInputDimensions : nat :=
  CeilToMultiple kInputDimensions kMaxSimdWidth.

Definition kSelfBufferSize : nat :=
  CeilToMultiple (kOutputDimensions * sizeof OutputType) kCacheLineSize.

Definition kBufferSize : nat :=
  (Layer.kBufferSize (L := PreviousLayer) + kSelfBufferSize)%nat.

(** [PreviousLayer::GetHashValue()] returns a [std::uint32_t]. *)
Definition GetHashValue : Z :=
  let hash_value := 0xCC03DAE4 in
  let hash_value := uint32 (hash_value + Z.of_nat kOutputDimensions) in
  let hash_value :=
    Z.lxor hash_value
      (Z.shiftr (uint32 (Layer.GetHashValue (L := PreviousLayer))) 1) in
  let hash_value :=
    Z.lxor hash_value
      (uint32 (Z.shiftl (uint32 (Layer.GetHashValue (L := PreviousLayer))) 31)) in
  hash_value.

Record t := {
  previous_layer_ : PreviousLayer;
  biases_ : list byte;
  weights_ : list byte
}.

(** The arrays have [kOutputDimensions] biases of four bytes and
    [kOutputDimensions * kPaddedInputDimensions] weights of one. *)
Definition well_sized (self : t) : Prop :=
  length (biases_ self) = (kOutputDimensions * sizeof BiasType)%nat ∧
  length (weights_ self) =
    (kOutputDimensions * kPaddedInputDimensions * sizeof WeightType)%nat.

Definition ReadParameters (self : t) (stream : istream.t)
    : bool * t * istream.t :=
  let '(ok, previous_layer, stream) :=
    Layer.ReadParameters (previous_layer_ self) stream in
  if negb ok then
    (false,
     {| previous_layer_ := previous_layer;
        biases_ := biases_ self; weights_ := weights_ self |},
     stream)
  else
    let '(stream, biases) :=
      istream.read stream (biases_ self)
        (kOutputDimensions * sizeof BiasType) in
    let '(stream, weights) :=
      istream.read stream (weights_ self)
        (kOutputDimensions * kPaddedInputDimensions * sizeof WeightType) in
    (negb (istream.fail stream),
     {| previous_layer_ := previous_layer;
        biases_ := biases; weights_ := weights |},
     stream).

(** [biases_[i]] and [weights_[k]]. *)
Definition bias_at (self : t) (i : nat) : option Z :=
  bs ← load_bytes (λ t, biases_ self !! t) (i * sizeof BiasType) 4;
  Some (int32_of_bytes bs).

Definition weight_at (self : t) (k : nat) : option byte :=
  weights_ self !! k.

(** The body of the loop over [i], up to the value stored in
    [output[i]]; [input j] reads the byte [j] places after the pointer
    the previous layer returned. *)

Definition row_avx2 (self : t) (input : nat → option byte) (i : nat)
    : option Z :=
  let kNumChunks := (kPaddedInputDimensions / kSimdWidth AVX2)%nat in
  let kOnes := _mm256_set1_epi16 1 in
  let offset := (i * kPaddedInputDimensions)%nat in
  bias ← bias_at self i;
  let sum := _mm256_set_epi32 0 0 0 0 0 0 0 bias in
  sum ← for_loop kNumChunks (λ j sum,
      a ← _mm256_load_si256 input (j * 32);
      b ← _mm256_load_si256 (weight_at self) (offset + j * 32);
      let product := _mm256_maddubs_epi16 a b in
      let product := _mm256_madd_epi16 product kOnes in
      Some (_mm256_add_epi32 sum product)) sum;
  let sum := _mm256_hadd_epi32 sum sum in
  let sum := _mm256_hadd_epi32 sum sum in
  let lo := _mm256_extracti128_si256 sum 0 in
  let hi := _mm256_extracti128_si256 sum 1 in
  Some (wrap32 (_mm_cvtsi128_si32 lo + _mm_cvtsi128_si32 hi)).

Definition row_ssse3 (self : t) (input : nat → option byte) (i : nat)
    : option Z :=
  let kNumChunks := (kPaddedInputDimensions / kSimdWidth SSSE3)%nat in
  let kOnes := _mm_set1_epi16 1 in
  let offset := (i * kPaddedInputDimensions)%nat in
  bias ← bias_at self i;
  let sum := _mm_cvtsi32_si128 bias in
  sum ← for_loop kNumChunks (λ j sum,
      a ← _mm_load_si128 input (j * 16);
      b ← _mm_load_si128 (weight_at self) (offset + j * 16);
      let product := _mm_maddubs_epi16 a b in
      let product := _mm_madd_epi16 product kOnes in
      Some (_mm_add_epi32 sum product)) sum;
  let sum := _mm_hadd_epi32 sum sum in
  let sum := _mm_hadd_epi32 sum sum in
  Some (_mm_cvtsi128_si32 sum).

(** [input_vector] and [row] point to [int8x8_t], eight bytes each. *)
Definition row_neon (self : t) (input : nat → option byte) (i : nat)
    : option Z :=
  let kNumChunks := (kPaddedInputDimensions / kSimdWidth NEON)%nat in
  let offset := (i * kPaddedInputDimensions)%nat in
  bias ← bias_at self i;
  let sum := int32x4_init bias in
  sum ← for_loop kNumChunks (λ j sum,
      a0 ← load_int8x8_t input (j * 2 * 8);
      b0 ← load_int8x8_t (weight_at self) (offset + j * 2 * 8);
      let product := vmull_s8 a0 b0 in
      a1 ← load_int8x8_t input ((j * 2 + 1) * 8);
      b1 ← load_int8x8_t (weight_at self) (offset + (j * 2 + 1) * 8);
      let product := vmlal_s8 product a1 b1 in
      Some (vpadalq_s16 sum product)) sum;
  Some (wrap32 (wrap32 (wrap32 (lane sum 0 + lane sum 1) + lane sum 2)
                + lane sum 3)).

Definition row_portable (self : t) (input : nat → option byte) (i : nat)
    : option Z :=
  let offset := (i * kPaddedInputDimensions)%nat in
  sum ← bias_at self i;
  for_loop kInputDimensions (λ j sum,
      w ← weight_at self (offset + j);
      x ← input j;
      Some (wrap32 (sum + s8 w * u8 x))) sum.

(** The integers the arrays and the input vector hold: the weight of row
    [i] and column [j], the bias of row [i], the activation [j]; zero where
    there is none. *)
Definition weight_value (self : t) (i j : nat) : Z :=
  s8 (default x00 (weight_at self (i * kPaddedInputDimensions + j))).

Definition bias_value (self : t) (i : nat) : Z :=
  default 0 (bias_at self i).

Definition input_value (m : mem) (input : Z) (j : nat) : Z :=
  u8 (default x00 (m !! (input + Z.of_nat j))).

(** The output the specification prescribes for row [i], the sum taken
    over the first [n] columns: [bias[i] + Σ_j weight[i][j] * input[j]]. *)
Definition affine_output (self : t) (x : nat → Z) (i n : nat) : Z :=
  bias_value self i + weighted_sum (weight_value self i) x n.

(** What [Propagate] relies on, once the previous layer has returned
    [input] with the memory [m]: the [kPaddedInputDimensions] bytes at
    [input] and the [kOutputDimensions * 4] bytes at [buffer] are mapped,
    and the former lie outside the latter. *)
Definition input_mapped (m : mem) (input : Z) : Prop :=
  ∀ j, (j < kPaddedInputDimensions)%nat → is_Some (m !! (input + Z.of_nat j)).

Definition output_mapped (m : mem) (buffer : Z) : Prop :=
  ∀ a, buffer ≤ a < buffer + Z.of_nat (kOutputDimensions * 4) →
       is_Some (m !! a).

Definition input_apart (buffer input : Z) : Prop :=
  ∀ j, (j < kPaddedInputDimensions)%nat →
       ¬ (buffer ≤ input + Z.of_nat j
          < buffer + Z.of_nat (kOutputDimensions * 4)).

(** Invariant I1: the padding columns of every weight row and the padding
    entries of the input vector are zero. *)
Definition zero_padding (self : t) (m : mem) (input : Z) : Prop :=
  (∀ i j, (i < kOutputDimensions)%nat →
          (kInputDimensions ≤ j < kPaddedInputDimensions)%nat →
          weight_value self i j = 0) ∧
  (∀ j, (kInputDimensions ≤ j < kPaddedInputDimensions)%nat →
        input_value m input j = 0).

Definition row (kernel : Kernel) :=
  match kernel with
  | AVX2 => row_avx2
  | SSSE3 => row_ssse3
  | NEON => row_neon
  | Portable => row_portable
  end.

Definition Propagate (kernel : Kernel) (self : t)
    (transformed_features buffer : Z) (m : mem) : option (Z * mem) :=
  '(input, m) ← Layer.Propagate (previous_layer_ self)
                  transformed_features (buffer + Z.of_nat kSelfBufferSize) m;
  let output := buffer in
  m ← for_loop kOutputDimensions (λ i m,
        sum ← row kernel self (λ j, m !! (input + Z.of_nat j)) i;
        store_int32 m (output + Z.of_nat (i * sizeof OutputType)) sum) m;
  Some (output, m).

(** The layer offers the contract it requires of [PreviousLayer]. *)
#[export] Instance layer (kernel : Kernel) : Layer.t t := {|
  Layer.OutputType := OutputType;
  Layer.kOutputDimensions := kOutputDimensions;
  Layer.kBufferSize := kBufferSize;
  Layer.GetHashValue := GetHashValue;
  Layer.ReadParameters := ReadParameters;
  Layer.Propagate := Propagate kernel
|}.

End AffineTransform.

End AffineTransform.

(** ** The structure string *)

(** [std::to_string] of an [IndexType]: the decimal numeral. *)
Definition to_string (n : nat) : string := pretty n.

(** A string of decimal digits. *)
Fixpoint digits (s : string) : Prop :=
  match s with
  | EmptyString => True
  | String c s' => (48 ≤ Ascii.nat_of_ascii c ≤ 57)%nat ∧ digits s'
  end.

Module Layout.

(** [PreviousLayer::GetStructureString()]. *)
Class t (L : Type) := { GetStructureString : string }.

End Layout.

Module AffineTransformLayout.

Section AffineTransformLayout.

Context (PreviousLayer : Type) `{!Layer.t PreviousLayer}.
Context `{!Layout.t PreviousLayer}.
Context (OutputDimensions : nat).

Definition GetStructureString : string :=
  ((((("AffineTransform[" +:+
       to_string (AffineTransform.kOutputDimensions OutputDimensions)) +:+ "<-") +:+
     to_string (AffineTransform.kInputDimensions PreviousLayer)) +:+ "](") +:+
   Layout.GetStructureString (L := PreviousLayer)) +:+ ")".

(** The layer offers the string to the layer above. *)
#[export] Instance layout : Layout.t (AffineTransform.t PreviousLayer) :=
  {| Layout.GetStructureString := GetStructureString |}.

End AffineTransformLayout.

End AffineTransformLayout.

(** ** What the kernels compute on arbitrary bytes *)

(** [narrow (term 0 + term 1) + narrow (term 2 + term 3) + ...], over [n]
    adjacent pairs. *)
Fixpoint pair_sum (narrow : Z → Z) (term : nat → Z) (n : nat) : Z :=
  match n with
  | O => 0
  | S n' => pair_sum narrow term n' + narrow (term (2 * n')%nat + term (2 * n' + 1)%nat)
  end.

(** ** Layers in a chain *)

(** A layer whose [Propagate] changes no byte outside the [kBufferSize]
    bytes at [buffer]. *)
Definition writes_within_buffer (L : Type) `{!Layer.t L} : Prop :=
  ∀ (l : L) (transformed_features buffer : Z) (m : mem) output m',
    Layer.Propagate l transformed_features buffer m = Some (output, m') →
    ∀ a, ¬ (buffer ≤ a < buffer + Z.of_nat (Layer.kBufferSize (L := L))) →
         m' !! a = m !! a.

(** ** Fixtures for concrete evaluations *)

Module Fixture.

(** A first layer of a chain: it owns no parameters and no part of the
    buffer, and presents [transformed_features] as its output. Its
    [ReadParameters] reads nothing and reports the state of the stream. *)
Inductive Source (dims : nat) := source.

#[export] Instance Source_layer (dims : nat) : Layer.t (Source dims) := {|
  Layer.OutputType := uint8_t;
  Layer.kOutputDimensions := dims;
  Layer.kBufferSize := 0;
  Layer.GetHashValue := Z.of_nat dims;
  Layer.ReadParameters := λ l stream, (negb (istream.fail stream), l, stream);
  Layer.Propagate := λ _ transformed_features _ m, Some (transformed_features, m)
|}.

#[export] Instance cache_line_64 : NnueCommon := {| kCacheLineSize := 64 |}.

(** Memory holding [bs] from address [a] on. *)
Fixpoint region (a : Z) (bs : list byte) : mem :=
  match bs with
  | [] => ∅
  | b :: bs' => <[a := b]> (region (a + 1) bs')
  end.

Definition file (bs : list byte) : istream.t :=
  {| istream.pending := bs; istream.at_end := istream.end_of_file;
     istream.eofbit := false; istream.failbit := false;
     istream.badbit := false |}.

(** One output over two inputs, padded to 32. *)
Definition layer_1x2 (bias : Z) (w0 w1 : byte) : AffineTransform.t (Source 2) :=
  {| AffineTransform.previous_layer_ := source 2;
     AffineTransform.biases_ := bytes_of_int32 bias;
     AffineTransform.weights_ := w0 :: w1 :: replicate 30 x00 |}.

(** A 64-byte scratch buffer at address 0 and the 32 input bytes at
    address 1000. *)
Definition memory_1x2 (x0 x1 : byte) : mem :=
  region 0 (replicate 64 xff) ∪ region 1000 (x0 :: x1 :: replicate 30 x00).

#[export] Instance Source_layout (dims : nat) : Layout.t (Source dims) :=
  {| Layout.GetStructureString :=
       ("InputSlice[" +:+ to_string dims) +:+ "]" |}.

(** The scratch buffer and only the two true input bytes: the padding of
    the input vector is not mapped. *)
Definition memory_unpadded (x0 x1 : byte) : mem :=
  region 0 (replicate 64 xff) ∪ region 1000 [x0; x1].

(** A first layer with no output at all. *)
Definition layer_1x0 (bias : Z) : AffineTransform.t (Source 0) :=
  {| AffineTransform.previous_layer_ := source 0;
     AffineTransform.biases_ := bytes_of_int32 bias;
     AffineTransform.weights_ := [] |}.

End Fixture.

(** * Properties *)

(** ** Fixed-width arithmetic *)

Lemma wrap32_range z : - 2 ^ 31 ≤ wrap32 z < 2 ^ 31.
Proof. unfold wrap32. pose proof (Z.mod_pos_bound (z + 2 ^ 31) (2 ^ 32)). lia. Qed.

Lemma wrap32_id z : - 2 ^ 31 ≤ z < 2 ^ 31 → wrap32 z = z.
Proof. intros Hz. unfold wrap32. rewrite Z.mod_small; lia. Qed.

Lemma wrap32_add_l a b : wrap32 (wrap32 a + b) = wrap32 (a + b).
Proof.
  unfold wrap32. f_equal.
  replace ((a + 2 ^ 31) mod 2 ^ 32 - 2 ^ 31 + b + 2 ^ 31)
    with ((a + 2 ^ 31) mod 2 ^ 32 + b) by lia.
  rewrite Zplus_mod_idemp_l. f_equal. lia.
Qed.

Lemma wrap32_add_r a b : wrap32 (a + wrap32 b) = wrap32 (a + b).
Proof. rewrite Z.add_comm, wrap32_add_l. f_equal. lia. Qed.

Lemma wrap32_add a b : wrap32 (wrap32 a + wrap32 b) = wrap32 (a + b).
Proof. now rewrite wrap32_add_l, wrap32_add_r. Qed.

Lemma wrap32_idemp a : wrap32 (wrap32 a) = wrap32 a.
Proof. apply wrap32_id, wrap32_range. Qed.

Lemma wrap16_id z : - 2 ^ 15 ≤ z < 2 ^ 15 → wrap16 z = z.
Proof. intros Hz. unfold wrap16. rewrite Z.mod_small; lia. Qed.

Lemma sat16_id z : - 2 ^ 15 ≤ z < 2 ^ 15 → sat16 z = z.
Proof. unfold sat16. lia. Qed.

Lemma u8_range b : 0 ≤ u8 b ≤ 255.
Proof. unfold u8. pose proof (Byte.to_N_bounded b). lia. Qed.

Lemma s8_range b : - 128 ≤ s8 b ≤ 127.
Proof.
  unfold s8. pose proof (u8_range b).
  destruct (Z.ltb_spec (u8 b) 128); lia.
Qed.

Lemma s8_small b : u8 b ≤ 127 → s8 b = u8 b.
Proof. unfold s8. intros Hb. destruct (Z.ltb_spec (u8 b) 128); lia. Qed.

Lemma u8_byte_of_Z z : u8 (byte_of_Z z) = z mod 256.
Proof.
  unfold u8, byte_of_Z.
  pose proof (Z.mod_pos_bound z 256 ltac:(lia)) as Hr.
  destruct (Byte.of_N (Z.to_N (z mod 256))) as [b|] eqn:Hb; simpl.
  - apply Byte.to_of_N in Hb. rewrite Hb. lia.
  - apply Byte.of_N_None_iff in Hb. lia.
Qed.

Lemma int32_of_bytes_of_int32 v : int32_of_bytes (bytes_of_int32 v) = wrap32 v.
Proof.
  unfold bytes_of_int32, int32_of_bytes. rewrite !u8_byte_of_Z.
  unfold wrap32. f_equal.
  change (2 ^ 32) with (2 ^ 8 * (2 ^ 8 * (2 ^ 8 * 2 ^ 8))).
  change (2 ^ 16) with (2 ^ 8 * 2 ^ 8).
  change (2 ^ 24) with (2 ^ 8 * (2 ^ 8 * 2 ^ 8)).
  change 256 with (2 ^ 8).
  set (B := 2 ^ 8). assert (HB : 0 < B) by (unfold B; lia).
  rewrite <- !Z.div_div by lia.
  set (q1 := v / B). set (q2 := q1 / B). set (q3 := q2 / B).
  pose proof (Z.div_mod v B ltac:(lia)) as E0.
  pose proof (Z.div_mod q1 B ltac:(lia)) as E1.
  pose proof (Z.div_mod q2 B ltac:(lia)) as E2.
  pose proof (Z.div_mod q3 B ltac:(lia)) as E3.
  fold q1 in E0. fold q2 in E1. fold q3 in E2.
  set (r0 := v mod B) in *. set (r1 := q1 mod B) in *.
  set (r2 := q2 mod B) in *. set (r3 := q3 mod B) in *.
  replace (v + 2 ^ 31)
    with ((r0 + B * r1 + B * B * r2 + B * (B * B) * r3 + 2 ^ 31)
          + (q3 / B) * (B * (B * (B * B)))) by nia.
  rewrite Z.mod_add by nia. reflexivity.
Qed.

Lemma int32_of_bytes_range bs : - 2 ^ 31 ≤ int32_of_bytes bs < 2 ^ 31.
Proof.
  destruct bs as [|b0 [|b1 [|b2 [|b3 [|b4 bs]]]]]; simpl; try lia.
  apply wrap32_range.
Qed.

(** ** Rounding up *)

Lemma CeilToMultiple_spec n base :
  (0 < base)%nat →
  (CeilToMultiple n base `mod` base = 0 ∧
   n ≤ CeilToMultiple n base < n + base)%nat.
Proof.
  intros Hb. unfold CeilToMultiple.
  split; [apply Nat.Div0.mod_mul|].
  pose proof (Nat.div_mod_eq (n + base - 1) base) as E.
  pose proof (Nat.mod_upper_bound (n + base - 1) base ltac:(lia)) as Hr.
  lia.
Qed.

(** It is the least multiple of [base] that is not below [n]. *)
Lemma CeilToMultiple_least n base k :
  (0 < base)%nat → (n ≤ k * base)%nat → (CeilToMultiple n base ≤ k * base)%nat.
Proof.
  intros Hb Hk. unfold CeilToMultiple.
  apply Nat.mul_le_mono_r.
  cut ((n + base - 1) / base < S k)%nat; [lia|].
  apply Nat.Div0.div_lt_upper_bound.
  rewrite Nat.mul_succ_r, (Nat.mul_comm base k). lia.
Qed.

Lemma kMaxSimdWidth_eq : kMaxSimdWidth = 32%nat.
Proof. reflexivity. Qed.

(** ** Bits of 32-bit values *)

Lemma uint32_range z : 0 ≤ uint32 z < 2 ^ 32.
Proof. unfold uint32. apply Z.mod_pos_bound. lia. Qed.

Lemma uint32_id z : 0 ≤ z < 2 ^ 32 → uint32 z = z.
Proof. intros Hz. unfold uint32. apply Z.mod_small. lia. Qed.

Lemma testbit_above_32 h j : 0 ≤ h < 2 ^ 32 → 32 ≤ j → Z.testbit h j = false.
Proof.
  intros Hh Hj. rewrite <- (uint32_id h Hh). unfold uint32.
  apply Z.mod_pow2_bits_high. lia.
Qed.

Lemma below_2_32 a :
  0 ≤ a → (∀ j, 32 ≤ j → Z.testbit a j = false) → a < 2 ^ 32.
Proof.
  intros Ha Hbits.
  cut (a = a mod 2 ^ 32).
  { intros ->. apply Z.mod_pos_bound. lia. }
  apply Z.bits_inj'. intros j Hj.
  destruct (Z.lt_ge_cases j 32).
  - rewrite Z.mod_pow2_bits_low; [reflexivity | lia].
  - rewrite Z.mod_pow2_bits_high by lia. apply Hbits. lia.
Qed.

Lemma lxor_uint32 a b : 0 ≤ a < 2 ^ 32 → 0 ≤ b < 2 ^ 32 → 0 ≤ Z.lxor a b < 2 ^ 32.
Proof.
  intros Ha Hb.
  assert (0 ≤ Z.lxor a b) as Hnn by (apply Z.lxor_nonneg; lia).
  split; [exact Hnn|].
  apply below_2_32; [exact Hnn|]. intros j Hj.
  rewrite Z.lxor_spec, !testbit_above_32 by lia. reflexivity.
Qed.

Lemma shiftr_uint32 h : 0 ≤ h < 2 ^ 32 → 0 ≤ Z.shiftr h 1 < 2 ^ 32.
Proof.
  intros Hh. rewrite Z.shiftr_div_pow2 by lia.
  change (2 ^ 1) with 2. split.
  - apply Z.div_pos; lia.
  - apply Z.div_lt_upper_bound; lia.
Qed.

Lemma rotated_bit_low h j :
  0 ≤ j < 31 → Z.testbit (rotated h) j = Z.testbit h (j + 1).
Proof.
  intros Hj. unfold rotated, uint32.
  rewrite Z.lxor_spec, Z.shiftr_spec by lia.
  rewrite Z.mod_pow2_bits_low by lia.
  rewrite Z.shiftl_spec by lia.
  rewrite (Z.testbit_neg_r h (j - 31)) by lia.
  apply xorb_false_r.
Qed.

Lemma rotated_bit_31 h :
  0 ≤ h < 2 ^ 32 → Z.testbit (rotated h) 31 = Z.testbit h 0.
Proof.
  intros Hh. unfold rotated, uint32.
  rewrite Z.lxor_spec, Z.shiftr_spec by lia.
  rewrite Z.mod_pow2_bits_low by lia.
  rewrite Z.shiftl_spec by lia.
  rewrite (testbit_above_32 h (31 + 1)) by lia.
  reflexivity.
Qed.

Lemma rotated_inj h1 h2 :
  0 ≤ h1 < 2 ^ 32 → 0 ≤ h2 < 2 ^ 32 → rotated h1 = rotated h2 → h1 = h2.
Proof.
  intros H1 H2 E. apply Z.bits_inj'. intros j Hj.
  destruct (Z.eq_dec j 0) as [->|Hj0].
  - rewrite <- !rotated_bit_31 by assumption. now rewrite E.
  - destruct (Z.lt_ge_cases j 32).
    + replace j with (j - 1 + 1) by lia.
      rewrite <- !rotated_bit_low by lia. now rewrite E.
    + rewrite !testbit_above_32 by lia. reflexivity.
Qed.

Lemma rotated_range h : 0 ≤ h < 2 ^ 32 → 0 ≤ rotated h < 2 ^ 32.
Proof.
  intros Hh. unfold rotated.
  apply lxor_uint32; [apply shiftr_uint32; exact Hh | apply uint32_range].
Qed.

Lemma lxor_cancel_l a x y : Z.lxor a x = Z.lxor a y → x = y.
Proof.
  intros E.
  rewrite <- (Z.lxor_0_l x), <- (Z.lxor_0_l y), <- (Z.lxor_nilpotent a).
  rewrite !Z.lxor_assoc. now rewrite E.
Qed.

Lemma lxor_cancel_r a b x : Z.lxor a x = Z.lxor b x → a = b.
Proof. rewrite !(Z.lxor_comm _ x). apply lxor_cancel_l. Qed.

Lemma uint32_add_inj c a b :
  0 ≤ a < 2 ^ 32 → 0 ≤ b < 2 ^ 32 → uint32 (c + a) = uint32 (c + b) → a = b.
Proof.
  unfold uint32. intros Ha Hb E.
  pose proof (Z.div_mod (c + a) (2 ^ 32) ltac:(lia)) as Ea.
  pose proof (Z.div_mod (c + b) (2 ^ 32) ltac:(lia)) as Eb.
  rewrite E in Ea. lia.
Qed.

(** ** The hash *)

Section Hash.

Context (PreviousLayer : Type) `{!Layer.t PreviousLayer}.
Context (OutputDimensions : nat).

Local Abbreviation upstream_hash :=
  (uint32 (Layer.GetHashValue (L := PreviousLayer))).

Lemma GetHashValue_rotated :
  AffineTransform.GetHashValue PreviousLayer OutputDimensions =
  Z.lxor (uint32 (0xCC03DAE4 + Z.of_nat OutputDimensions)) (rotated upstream_hash).
Proof.
  unfold AffineTransform.GetHashValue, AffineTransform.kOutputDimensions, rotated.
  cbv zeta. apply Z.lxor_assoc.
Qed.

(** C4. The hash is [0xCC03DAE4 + OutputDimensions], in 32-bit wrap-around
    arithmetic, xor the previous layer's 32-bit hash shifted right by one,
    xor the same hash shifted left by 31 and cut to 32 bits; it is a 32-bit
    value, and it is computed from the shape alone, without any layer
    object. *)
Theorem GetHashValue_formula :
  AffineTransform.GetHashValue PreviousLayer OutputDimensions =
    Z.lxor
      (Z.lxor ((0xCC03DAE4 + Z.of_nat OutputDimensions) mod 2 ^ 32)
              (Z.shiftr upstream_hash 1))
      ((Z.shiftl upstream_hash 31) mod 2 ^ 32)
  ∧ 0 ≤ AffineTransform.GetHashValue PreviousLayer OutputDimensions < 2 ^ 32.
Proof.
  split; [reflexivity|].
  rewrite GetHashValue_rotated.
  apply lxor_uint32; [apply uint32_range | apply rotated_range, uint32_range].
Qed.

End Hash.

(** C8. The hash is a function of the shape: equal upstream hashes and
    equal output dimensions give equal hashes. With the upstream hash
    fixed, two distinct output dimensions (32-bit values, as [IndexType]
    holds them) give distinct hashes. With the output dimensions fixed, two
    distinct 32-bit upstream hashes give distinct hashes, the map
    [h ↦ (h >> 1) xor (h << 31)] being injective on 32-bit values. *)
Theorem GetHashValue_sensitivity
    (P1 P2 : Type) `{!Layer.t P1} `{!Layer.t P2} (O1 O2 : nat) :
  let h1 := Layer.GetHashValue (L := P1) in
  let h2 := Layer.GetHashValue (L := P2) in
  (h1 = h2 → O1 = O2 →
   AffineTransform.GetHashValue P1 O1 = AffineTransform.GetHashValue P2 O2)
  ∧ (Z.of_nat O1 < 2 ^ 32 → Z.of_nat O2 < 2 ^ 32 → O1 ≠ O2 →
     AffineTransform.GetHashValue P1 O1 ≠ AffineTransform.GetHashValue P1 O2)
  ∧ (0 ≤ h1 < 2 ^ 32 → 0 ≤ h2 < 2 ^ 32 → h1 ≠ h2 →
     AffineTransform.GetHashValue P1 O1 ≠ AffineTransform.GetHashValue P2 O1)
  ∧ (0 ≤ h1 < 2 ^ 32 → 0 ≤ h2 < 2 ^ 32 →
     Z.lxor (Z.shiftr h1 1) (Z.shiftl h1 31 mod 2 ^ 32) =
     Z.lxor (Z.shiftr h2 1) (Z.shiftl h2 31 mod 2 ^ 32) → h1 = h2).
Proof.
  intros h1 h2. repeat split.
  - intros Eh ->. rewrite !GetHashValue_rotated. fold h1 h2. now rewrite Eh.
  - intros B1 B2 Hne E. rewrite !GetHashValue_rotated in E.
    apply lxor_cancel_r, uint32_add_inj in E; lia.
  - intros B1 B2 Hne E. rewrite !GetHashValue_rotated in E. fold h1 h2 in E.
    apply lxor_cancel_l in E. rewrite !uint32_id in E by assumption.
    apply rotated_inj in E; auto.
  - intros B1 B2 E. apply rotated_inj; assumption.
Qed.

(** ** Buffer sizes and padding *)

Section Sizes.

Context `{NnueCommon}.
Context (PreviousLayer : Type) `{!Layer.t PreviousLayer}.
Context (OutputDimensions : nat).

Local Abbreviation kInputDimensions :=
  (AffineTransform.kInputDimensions PreviousLayer).
Local Abbreviation kPaddedInputDimensions :=
  (AffineTransform.kPaddedInputDimensions PreviousLayer).
Local Abbreviation kSelfBufferSize :=
  (AffineTransform.kSelfBufferSize OutputDimensions).

Lemma kPaddedInputDimensions_spec :
  (kPaddedInputDimensions `mod` 32 = 0 ∧
   kInputDimensions ≤ kPaddedInputDimensions < kInputDimensions + 32)%nat.
Proof.
  unfold AffineTransform.kPaddedInputDimensions. rewrite kMaxSimdWidth_eq.
  apply CeilToMultiple_spec. lia.
Qed.

Lemma kPaddedInputDimensions_chunks (k : Kernel) :
  (kPaddedInputDimensions / kSimdWidth k * kSimdWidth k)%nat
  = kPaddedInputDimensions.
Proof.
  destruct kPaddedInputDimensions_spec as [Hm _].
  pose proof (Nat.div_mod_eq kPaddedInputDimensions 32) as E.
  rewrite Hm, Nat.add_0_r in E.
  set (q := (kPaddedInputDimensions / 32)%nat) in E.
  rewrite E.
  destruct k; simpl kSimdWidth.
  - rewrite (Nat.mul_comm 32 q), Nat.div_mul by lia. reflexivity.
  - replace (32 * q)%nat with (2 * q * 16)%nat by lia.
    rewrite Nat.div_mul by lia. reflexivity.
  - replace (32 * q)%nat with (2 * q * 16)%nat by lia.
    rewrite Nat.div_mul by lia. reflexivity.
  - rewrite Nat.div_1_r. lia.
Qed.

Lemma kSelfBufferSize_spec :
  (0 < kCacheLineSize)%nat →
  (kSelfBufferSize `mod` kCacheLineSize = 0 ∧
   OutputDimensions * 4 ≤ kSelfBufferSize
     < OutputDimensions * 4 + kCacheLineSize)%nat.
Proof. intros Hc. apply CeilToMultiple_spec. exact Hc. Qed.

(** C6. [kSelfBufferSize] is [OutputDimensions * 4] rounded up to the next
    multiple of the cache line size: a multiple of it, not below
    [OutputDimensions * 4], and the least such. [kBufferSize] adds it to
    the previous layer's. [kPaddedInputDimensions] is [kInputDimensions]
    rounded up in the same way to the maximum SIMD width, hence not below
    [kInputDimensions] and a multiple of every kernel's vector width. *)
Theorem buffer_and_padding_sizes :
  (0 < kCacheLineSize)%nat →
  (kSelfBufferSize `mod` kCacheLineSize = 0 ∧
   OutputDimensions * 4 ≤ kSelfBufferSize
     < OutputDimensions * 4 + kCacheLineSize ∧
   ∀ k, OutputDimensions * 4 ≤ k * kCacheLineSize →
        kSelfBufferSize ≤ k * kCacheLineSize)%nat
  ∧ AffineTransform.kBufferSize PreviousLayer OutputDimensions
    = (Layer.kBufferSize (L := PreviousLayer) + kSelfBufferSize)%nat
  ∧ (kPaddedInputDimensions `mod` kMaxSimdWidth = 0 ∧
     kInputDimensions ≤ kPaddedInputDimensions
       < kInputDimensions + kMaxSimdWidth ∧
     ∀ k, kInputDimensions ≤ k * kMaxSimdWidth →
          kPaddedInputDimensions ≤ k * kMaxSimdWidth)%nat
  ∧ ∀ k : Kernel, (kPaddedInputDimensions `mod` kSimdWidth k = 0)%nat.
Proof.
  intros Hc. split; [|split; [reflexivity|split]].
  - destruct (kSelfBufferSize_spec Hc) as [Hm Hb].
    split; [exact Hm|]. split; [exact Hb|].
    intros k Hk. apply CeilToMultiple_least; assumption.
  - rewrite kMaxSimdWidth_eq.
    destruct kPaddedInputDimensions_spec as [Hm Hb].
    split; [exact Hm|]. split; [exact Hb|].
    intros k Hk. unfold AffineTransform.kPaddedInputDimensions.
    rewrite kMaxSimdWidth_eq. apply CeilToMultiple_least; [lia | exact Hk].
  - intros k. rewrite <- (kPaddedInputDimensions_chunks k).
    apply Nat.Div0.mod_mul.
Qed.

End Sizes.

(** ** Reading from the stream *)

Lemma store_nil dst : istream.store [] dst = dst.
Proof. reflexivity. Qed.

Lemma store_all got dst :
  (length dst ≤ length got)%nat → istream.store got dst = got.
Proof.
  intros Hl. unfold istream.store.
  rewrite drop_ge by exact Hl. apply app_nil_r.
Qed.

Lemma read_enough s dst count :
  istream.good s = true → (count ≤ length (istream.pending s))%nat →
  istream.read s dst count =
    ({| istream.pending := drop count (istream.pending s);
        istream.at_end := istream.at_end s;
        istream.eofbit := false; istream.failbit := false;
        istream.badbit := false |},
     istream.store (take count (istream.pending s)) dst).
Proof.
  intros Hg Hc. unfold istream.read. rewrite Hg.
  destruct (decide _); [reflexivity | lia].
Qed.

Lemma read_short s dst count :
  istream.good s = true → (length (istream.pending s) < count)%nat →
  istream.good (istream.read s dst count).1 = false ∧
  istream.fail (istream.read s dst count).1 = true ∧
  istream.pending (istream.read s dst count).1 = [] ∧
  (istream.read s dst count).2 = istream.store (istream.pending s) dst.
Proof.
  intros Hg Hc. unfold istream.read. rewrite Hg.
  destruct (decide _); [lia|].
  destruct (istream.at_end s); repeat split.
Qed.

Lemma read_not_good s dst count :
  istream.good s = false →
  istream.good (istream.read s dst count).1 = false ∧
  istream.fail (istream.read s dst count).1 = true ∧
  istream.pending (istream.read s dst count).1 = istream.pending s ∧
  (istream.read s dst count).2 = dst.
Proof.
  intros Hg. unfold istream.read. rewrite Hg. simpl.
  unfold istream.good, istream.fail in *. simpl.
  repeat split. destruct (istream.eofbit s), (istream.badbit s); reflexivity.
Qed.

Section Reading.

Context `{NnueCommon}.
Context (PreviousLayer : Type) `{!Layer.t PreviousLayer}.
Context (OutputDimensions : nat).

Local Abbreviation kPaddedInputDimensions :=
  (AffineTransform.kPaddedInputDimensions PreviousLayer).
Local Abbreviation ReadParameters :=
  (AffineTransform.ReadParameters PreviousLayer OutputDimensions).
Local Abbreviation biases_ := (AffineTransform.biases_ PreviousLayer).
Local Abbreviation weights_ := (AffineTransform.weights_ PreviousLayer).
Local Abbreviation previous_layer_ :=
  (AffineTransform.previous_layer_ PreviousLayer).

(** Bytes in the biases section and in the weights section. *)
Local Abbreviation biases_size := (OutputDimensions * 4)%nat.
Local Abbreviation weights_size :=
  (OutputDimensions * kPaddedInputDimensions)%nat.

Lemma ReadParameters_upstream_failed self stream previous_layer stream1 :
  Layer.ReadParameters (previous_layer_ self) stream
    = (false, previous_layer, stream1) →
  ReadParameters self stream =
    (false,
     {| AffineTransform.previous_layer_ := previous_layer;
        AffineTransform.biases_ := biases_ self;
        AffineTransform.weights_ := weights_ self |},
     stream1).
Proof. intros E. unfold AffineTransform.ReadParameters. now rewrite E. Qed.

Lemma ReadParameters_own_sections self stream previous_layer stream1 :
  Layer.ReadParameters (previous_layer_ self) stream
    = (true, previous_layer, stream1) →
  ReadParameters self stream =
    let r1 := istream.read stream1 (biases_ self) biases_size in
    let r2 := istream.read r1.1 (weights_ self) weights_size in
    (negb (istream.fail r2.1),
     {| AffineTransform.previous_layer_ := previous_layer;
        AffineTransform.biases_ := r1.2;
        AffineTransform.weights_ := r2.2 |},
     r2.1).
Proof.
  intros E. unfold AffineTransform.ReadParameters. rewrite E. simpl negb.
  cbv iota. unfold AffineTransform.kOutputDimensions, AffineTransform.BiasType,
    AffineTransform.WeightType, AffineTransform.OutputType. simpl sizeof.
  rewrite Nat.mul_1_r.
  destruct (istream.read stream1 _ _) as [s2 b]. cbn [fst snd].
  destruct (istream.read s2 _ _) as [s3 w]. reflexivity.
Qed.

(** With the previous layer loaded and the stream good, both sections are
    read whole exactly when the stream holds that many bytes; what is
    stored is what was there to read. *)
Lemma ReadParameters_good self stream previous_layer stream1 :
  Layer.ReadParameters (previous_layer_ self) stream
    = (true, previous_layer, stream1) →
  istream.good stream1 = true →
  let r := ReadParameters self stream in
  (r.1.1 = true ↔
     (biases_size + weights_size ≤ length (istream.pending stream1))%nat)
  ∧ istream.pending r.2
    = drop (biases_size + weights_size) (istream.pending stream1)
  ∧ biases_ r.1.2
    = istream.store (take biases_size (istream.pending stream1)) (biases_ self)
  ∧ weights_ r.1.2
    = istream.store
        (take weights_size (drop biases_size (istream.pending stream1)))
        (weights_ self)
  ∧ (r.1.1 = true → istream.good r.2 = true).
Proof.
  intros E Hg r. subst r.
  rewrite (ReadParameters_own_sections _ _ _ _ E). cbv zeta.
  destruct (decide (biases_size ≤ length (istream.pending stream1))%nat) as [Hb|Hb].
  - rewrite (read_enough stream1 _ _ Hg Hb). cbn [fst snd].
    set (s2 := {| istream.pending := drop biases_size (istream.pending stream1) |}).
    assert (Hg2 : istream.good s2 = true) by reflexivity.
    destruct (decide (weights_size ≤ length (istream.pending s2))%nat) as [Hw|Hw].
    + rewrite (read_enough s2 _ _ Hg2 Hw). cbn [fst snd AffineTransform.biases_
        AffineTransform.weights_ istream.pending].
      subst s2. cbn [istream.pending] in Hw |- *. rewrite length_drop in Hw.
      rewrite drop_drop. repeat split; auto; intros; lia.
    + destruct (read_short s2 (weights_ self) weights_size Hg2 ltac:(lia))
        as (Hng & Hf & Hp & Hs).
      cbn [fst snd AffineTransform.biases_ AffineTransform.weights_].
      rewrite Hf, Hp, Hs. subst s2. cbn [istream.pending negb] in Hw |- *.
      rewrite length_drop in Hw.
      rewrite (drop_ge (istream.pending stream1)) by lia.
      rewrite (take_ge (drop _ _)) by (rewrite length_drop; lia).
      repeat split; auto; try discriminate; intros; lia.
  - destruct (read_short stream1 (biases_ self) biases_size Hg ltac:(lia))
      as (Hng & Hf & Hp & Hs).
    destruct (read_not_good _ (weights_ self) weights_size Hng)
      as (Hng2 & Hf2 & Hp2 & Hs2).
    cbn [fst snd AffineTransform.biases_ AffineTransform.weights_].
    rewrite Hf2, Hp2, Hs2, Hp, Hs.
    rewrite (drop_ge (istream.pending stream1)) by lia.
    rewrite (take_ge (istream.pending stream1)) by lia.
    rewrite (drop_ge (istream.pending stream1) biases_size) by lia.
    rewrite take_nil, store_nil.
    repeat split; auto; try discriminate; intros; lia.
Qed.

(** With the stream not good, nothing is read. *)
Lemma ReadParameters_not_good self stream previous_layer stream1 :
  Layer.ReadParameters (previous_layer_ self) stream
    = (true, previous_layer, stream1) →
  istream.good stream1 = false →
  let r := ReadParameters self stream in
  r.1.1 = false ∧ biases_ r.1.2 = biases_ self ∧ weights_ r.1.2 = weights_ self.
Proof.
  intros E Hg r. subst r.
  rewrite (ReadParameters_own_sections _ _ _ _ E). cbv zeta.
  destruct (read_not_good stream1 (biases_ self) biases_size Hg)
    as (Hng & Hf & Hp & Hs).
  destruct (read_not_good _ (weights_ self) weights_size Hng)
    as (Hng2 & Hf2 & Hp2 & Hs2).
  cbn [fst snd AffineTransform.biases_ AffineTransform.weights_].
  rewrite Hf2, Hs2, Hs. auto.
Qed.

End Reading.

(** ** Loads *)

Lemma load_bytes_Some (at_ : nat → option byte) (f : nat → byte) start count :
  (∀ k, (start ≤ k < start + count)%nat → at_ k = Some (f k)) →
  load_bytes at_ start count = Some (f <$> seq start count).
Proof.
  unfold load_bytes. revert start.
  induction count as [|count IH]; intros start Hat; [reflexivity|].
  cbn [seq mapM fmap list_fmap].
  rewrite (Hat start) by lia. rewrite (IH (S start)) by (intros; apply Hat; lia).
  reflexivity.
Qed.

Lemma fmap_seq_lookup (l : list byte) start count :
  (start + count ≤ length l)%nat →
  (λ k, default x00 (l !! k)) <$> seq start count = take count (drop start l).
Proof.
  revert start. induction count as [|count IH]; intros start Hl; [reflexivity|].
  destruct (lookup_lt_is_Some_2 l start ltac:(lia)) as [x Hx].
  rewrite (drop_S _ _ _ Hx). cbn [seq fmap list_fmap take].
  rewrite Hx. cbn [default]. f_equal. apply IH. lia.
Qed.

Lemma load_bytes_list (l : list byte) start count :
  (start + count ≤ length l)%nat →
  load_bytes (λ k, l !! k) start count = Some (take count (drop start l)).
Proof.
  intros Hl. rewrite <- fmap_seq_lookup by exact Hl.
  apply load_bytes_Some. intros k Hk.
  destruct (lookup_lt_is_Some_2 l k ltac:(lia)) as [x Hx].
  rewrite Hx. reflexivity.
Qed.

(** ** Loading parameters *)

Section Loading.

Context `{NnueCommon}.
Context (PreviousLayer : Type) `{!Layer.t PreviousLayer}.
Context (OutputDimensions : nat).

Local Abbreviation kPaddedInputDimensions :=
  (AffineTransform.kPaddedInputDimensions PreviousLayer).
Local Abbreviation ReadParameters :=
  (AffineTransform.ReadParameters PreviousLayer OutputDimensions).
Local Abbreviation biases_ := (AffineTransform.biases_ PreviousLayer).
Local Abbreviation weights_ := (AffineTransform.weights_ PreviousLayer).
Local Abbreviation previous_layer_ :=
  (AffineTransform.previous_layer_ PreviousLayer).
Local Abbreviation biases_size := (OutputDimensions * 4)%nat.
Local Abbreviation weights_size :=
  (OutputDimensions * kPaddedInputDimensions)%nat.

(** C3, amended. [ReadParameters] returns true exactly when the previous
    layer's load succeeded, the stream was then good and held at least the
    bytes of both sections; any shortfall or stream error makes it return
    false. When the failure is the previous layer's, or the stream was not
    good, [biases_] and [weights_] keep their values. When the stream was
    good, the bytes that could be read, up to the size of each section, are
    stored over the beginning of [biases_] and then of [weights_], also
    when the load then fails. *)
Theorem ReadParameters_failure self stream ok previous_layer stream1 :
  Layer.ReadParameters (previous_layer_ self) stream
    = (ok, previous_layer, stream1) →
  let r := ReadParameters self stream in
  (r.1.1 = true ↔
     ok = true ∧ istream.good stream1 = true ∧
     (biases_size + weights_size ≤ length (istream.pending stream1))%nat)
  ∧ (ok = false ∨ istream.good stream1 = false →
     biases_ r.1.2 = biases_ self ∧ weights_ r.1.2 = weights_ self)
  ∧ (ok = true → istream.good stream1 = true →
     biases_ r.1.2
       = istream.store (take biases_size (istream.pending stream1))
           (biases_ self) ∧
     weights_ r.1.2
       = istream.store
           (take weights_size (drop biases_size (istream.pending stream1)))
           (weights_ self)).
Proof.
  intros E r. subst r. destruct ok.
  - destruct (istream.good stream1) eqn:Hg.
    + destruct (ReadParameters_good _ OutputDimensions _ _ _ _ E Hg) as (Hiff & _ & Hb & Hw & _).
      split; [|split].
      * rewrite Hiff. intuition.
      * intros [?|?]; discriminate.
      * intros _ _. split; assumption.
    + destruct (ReadParameters_not_good _ OutputDimensions _ _ _ _ E Hg) as (Hr & Hb & Hw).
      split; [|split].
      * rewrite Hr. intuition discriminate.
      * intros _. split; assumption.
      * discriminate.
  - rewrite (ReadParameters_upstream_failed _ OutputDimensions _ _ _ _ E). cbn [fst snd].
    split; [|split].
    + intuition discriminate.
    + intros _. split; reflexivity.
    + discriminate.
Qed.

(** C5. [ReadParameters] first loads the previous layer from the stream.
    If that fails it returns false, with its own arrays as they were and
    the stream as the previous layer left it: its own sections are not
    attempted. If that succeeds, and the stream continues with
    [OutputDimensions * 4] bytes [bs], immediately followed by
    [OutputDimensions * kPaddedInputDimensions] bytes [ws], it returns
    true with [biases_ = bs] and [weights_ = ws], leaving the stream at the
    byte after [ws]: [biases_[i]] is the 32-bit signed value of the four
    bytes at [4 * i] of [bs], and the weight of row [i] and column [j] is
    the byte at [i * kPaddedInputDimensions + j] of [ws], read signed. *)
Theorem ReadParameters_format self stream ok previous_layer stream1 bs ws rest :
  AffineTransform.well_sized PreviousLayer OutputDimensions self →
  Layer.ReadParameters (previous_layer_ self) stream
    = (ok, previous_layer, stream1) →
  (ok = false →
   ReadParameters self stream =
     (false,
      {| AffineTransform.previous_layer_ := previous_layer;
         AffineTransform.biases_ := biases_ self;
         AffineTransform.weights_ := weights_ self |},
      stream1))
  ∧ (ok = true → istream.good stream1 = true →
     istream.pending stream1 = bs ++ ws ++ rest →
     length bs = biases_size → length ws = weights_size →
     let self' :=
       {| AffineTransform.previous_layer_ := previous_layer;
          AffineTransform.biases_ := bs;
          AffineTransform.weights_ := ws |} in
     ReadParameters self stream =
       (true, self',
        {| istream.pending := rest; istream.at_end := istream.at_end stream1;
           istream.eofbit := false; istream.failbit := false;
           istream.badbit := false |})
     ∧ (∀ i, (i < OutputDimensions)%nat →
        AffineTransform.bias_at PreviousLayer self' i
          = Some (int32_of_bytes (take 4 (drop (4 * i) bs))))
     ∧ (∀ i j, (i < OutputDimensions)%nat → (j < kPaddedInputDimensions)%nat →
        s8 <$> AffineTransform.weight_at PreviousLayer self'
                 (i * kPaddedInputDimensions + j)
          = s8 <$> ws !! (i * kPaddedInputDimensions + j)%nat
        ∧ is_Some (ws !! (i * kPaddedInputDimensions + j)%nat))).
Proof.
  intros [Hlb Hlw] E. split.
  - intros ->. apply ReadParameters_upstream_failed, E.
  - intros -> Hg Hp Hbs Hws self'.
    unfold AffineTransform.kOutputDimensions, AffineTransform.BiasType,
      AffineTransform.WeightType, AffineTransform.OutputType in Hlb, Hlw.
    simpl sizeof in Hlb, Hlw. rewrite Nat.mul_1_r in Hlw.
    split; [|split].
    + rewrite (ReadParameters_own_sections _ OutputDimensions _ _ _ _ E). cbv zeta.
      rewrite (read_enough stream1 _ _ Hg)
        by (rewrite Hp, !length_app; lia).
      cbn [fst snd].
      rewrite read_enough;
        [|reflexivity|cbn [istream.pending]; rewrite Hp, length_drop, !length_app; lia].
      cbn [fst snd istream.pending istream.at_end]. rewrite Hp.
      assert (take biases_size (bs ++ ws ++ rest) = bs) as ->
        by (rewrite <- Hbs; apply take_app_length).
      assert (drop biases_size (bs ++ ws ++ rest) = ws ++ rest) as ->
        by (rewrite <- Hbs; apply drop_app_length).
      assert (take weights_size (ws ++ rest) = ws) as ->
        by (rewrite <- Hws; apply take_app_length).
      assert (drop weights_size (ws ++ rest) = rest) as ->
        by (rewrite <- Hws; apply drop_app_length).
      rewrite !store_all by lia. reflexivity.
    + intros i Hi. unfold AffineTransform.bias_at.
      cbn [AffineTransform.biases_ self'].
      unfold AffineTransform.BiasType, AffineTransform.OutputType. simpl sizeof.
      rewrite load_bytes_list by lia. rewrite (Nat.mul_comm i 4). reflexivity.
    + intros i j Hi Hj. split; [reflexivity|].
      apply lookup_lt_is_Some_2. rewrite Hws. nia.
Qed.

(** C10. Once the previous layer is loaded and the stream is good and holds
    at least [OutputDimensions * 4 + OutputDimensions *
    kPaddedInputDimensions] bytes, [ReadParameters] returns true, however
    many bytes follow: they are left unread in the stream, which stays
    good. *)
Theorem ReadParameters_trailing_bytes self stream previous_layer stream1 :
  Layer.ReadParameters (previous_layer_ self) stream
    = (true, previous_layer, stream1) →
  istream.good stream1 = true →
  (biases_size + weights_size ≤ length (istream.pending stream1))%nat →
  let r := ReadParameters self stream in
  r.1.1 = true
  ∧ istream.pending r.2
    = drop (biases_size + weights_size) (istream.pending stream1)
  ∧ istream.good r.2 = true.
Proof.
  intros E Hg Hlen r. subst r.
  destruct (ReadParameters_good _ OutputDimensions _ _ _ _ E Hg) as (Hiff & Hp & _ & _ & Hgood).
  assert (Hr := proj2 Hiff Hlen). auto.
Qed.

End Loading.

(** ** Stores *)

Lemma store_byte_Some m a b m' :
  store_byte m a b = Some m' → is_Some (m !! a) ∧ m' = <[a := b]> m.
Proof.
  unfold store_byte. destruct (m !! a) eqn:E; [|discriminate].
  intros [= <-]. split; [eauto | reflexivity].
Qed.

Lemma store_bytes_frame bs : ∀ m a m',
  store_bytes m a bs = Some m' →
  ∀ x, ¬ (a ≤ x < a + Z.of_nat (length bs)) → m' !! x = m !! x.
Proof.
  induction bs as [|b bs IH]; intros m a m' Hs x Hx.
  - injection Hs as <-. reflexivity.
  - cbn [store_bytes] in Hs.
    destruct (store_byte m a b) as [m0|] eqn:E0; [|discriminate].
    cbn [mbind option_bind] in Hs.
    apply store_byte_Some in E0 as [_ ->].
    cbn [length] in Hx.
    rewrite (IH _ _ _ Hs x) by lia.
    apply lookup_insert_ne. lia.
Qed.

Lemma store_bytes_read bs : ∀ m a m',
  store_bytes m a bs = Some m' →
  ∀ k, (k < length bs)%nat → m' !! (a + Z.of_nat k) = bs !! k.
Proof.
  induction bs as [|b bs IH]; intros m a m' Hs k Hk; [cbn in Hk; lia|].
  cbn [store_bytes] in Hs.
  destruct (store_byte m a b) as [m0|] eqn:E0; [|discriminate].
  cbn [mbind option_bind] in Hs.
  apply store_byte_Some in E0 as [_ ->].
  destruct k as [|k].
  - rewrite (store_bytes_frame _ _ _ _ Hs) by lia.
    rewrite Z.add_0_r. apply lookup_insert_eq.
  - cbn [length] in Hk.
    replace (a + Z.of_nat (S k)) with (a + 1 + Z.of_nat k) by lia.
    rewrite (IH _ _ _ Hs k) by lia. reflexivity.
Qed.

Lemma store_bytes_mapped bs : ∀ m a m',
  store_bytes m a bs = Some m' → ∀ x, is_Some (m' !! x) ↔ is_Some (m !! x).
Proof.
  induction bs as [|b bs IH]; intros m a m' Hs x.
  - injection Hs as <-. reflexivity.
  - cbn [store_bytes] in Hs.
    destruct (store_byte m a b) as [m0|] eqn:E0; [|discriminate].
    cbn [mbind option_bind] in Hs.
    apply store_byte_Some in E0 as [Hm ->].
    rewrite (IH _ _ _ Hs x).
    destruct (decide (a = x)) as [->|Hne].
    + rewrite lookup_insert_eq. split; [intros _; exact Hm | eauto].
    + rewrite lookup_insert_ne by exact Hne. reflexivity.
Qed.

Lemma store_bytes_success bs : ∀ m a,
  (∀ k, (k < length bs)%nat → is_Some (m !! (a + Z.of_nat k))) →
  is_Some (store_bytes m a bs).
Proof.
  induction bs as [|b bs IH]; intros m a Hm; [cbn; eauto|].
  cbn [store_bytes]. unfold store_byte.
  destruct (Hm 0%nat ltac:(cbn; lia)) as [y Hy].
  rewrite Z.add_0_r in Hy. rewrite Hy. cbn [mbind option_bind].
  apply IH. intros k Hk.
  destruct (decide (a = a + 1 + Z.of_nat k)) as [E|Hne]; [lia|].
  rewrite lookup_insert_ne by exact Hne.
  replace (a + 1 + Z.of_nat k) with (a + Z.of_nat (S k)) by lia.
  apply Hm. cbn. lia.
Qed.

Lemma load_int32_agree m m' a :
  (∀ x, a ≤ x < a + 4 → m' !! x = m !! x) → load_int32 m' a = load_int32 m a.
Proof.
  intros Hag. unfold load_int32, load_bytes. cbn [seq mapM].
  rewrite !Hag by lia. reflexivity.
Qed.

Lemma load_int32_store_int32 m a v m' :
  store_int32 m a v = Some m' → load_int32 m' a = Some (wrap32 v).
Proof.
  intros Hs. unfold store_int32 in Hs.
  pose proof (store_bytes_read _ _ _ _ Hs) as Hr.
  unfold load_int32, load_bytes. cbn [seq mapM].
  rewrite (Hr 0%nat), (Hr 1%nat), (Hr 2%nat), (Hr 3%nat) by (cbn; lia).
  cbn [bytes_of_int32 lookup list_lookup mbind option_bind mret option_ret].
  f_equal. apply int32_of_bytes_of_int32.
Qed.

(** ** Loops *)

(** An invariant kept by every iteration holds after the loop, which
    returns. *)
Lemma for_loop_invariant {St : Type} (Inv : nat → St → Prop) n
    (body : nat → St → option St) s :
  Inv 0%nat s →
  (∀ i s', (i < n)%nat → Inv i s' →
     ∃ s'', body i s' = Some s'' ∧ Inv (S i) s'') →
  ∃ s', for_loop n body s = Some s' ∧ Inv n s'.
Proof.
  intros H0. induction n as [|n IH]; intros Hstep.
  - exists s. split; [reflexivity | exact H0].
  - destruct IH as (s' & E & Hinv); [intros; apply Hstep; [lia | assumption]|].
    destruct (Hstep n s' ltac:(lia) Hinv) as (s'' & E' & Hinv').
    exists s''. cbn [for_loop]. rewrite E. cbn [mbind option_bind].
    split; assumption.
Qed.

(** An invariant kept by every iteration that returns holds whenever the
    loop returns. *)
Lemma for_loop_partial {St : Type} (Inv : nat → St → Prop) n
    (body : nat → St → option St) s s' :
  Inv 0%nat s →
  (∀ i t t', (i < n)%nat → Inv i t → body i t = Some t' → Inv (S i) t') →
  for_loop n body s = Some s' → Inv n s'.
Proof.
  intros H0. revert s'. induction n as [|n IH]; intros s' Hstep E.
  - injection E as <-. exact H0.
  - cbn [for_loop] in E.
    destruct (for_loop n body s) as [t|] eqn:En; [|discriminate].
    cbn [mbind option_bind] in E.
    apply (Hstep n t s'); [lia| |exact E].
    apply IH; [|reflexivity]. intros. eapply Hstep; eauto.
Qed.

(** ** Sums of lanes *)

Import Intrinsics.

Lemma lsum_app a b : lsum (a ++ b) = lsum a + lsum b.
Proof. induction a as [|x a IH]; cbn [lsum app] in *; lia. Qed.

Lemma even_length_ind {A : Type} (P : list A → Prop) :
  P [] → (∀ a b t, P t → P (a :: b :: t)) →
  ∀ k l, length l = (2 * k)%nat → P l.
Proof.
  intros Hnil Hstep. induction k as [|k IH]; intros l Hl.
  - destruct l; [exact Hnil | discriminate].
  - destruct l as [|a [|b t]]; cbn [length] in Hl; try lia.
    apply Hstep, IH. lia.
Qed.

Lemma length_hadd_pairs narrow k l :
  length l = (2 * k)%nat → length (hadd_pairs narrow l) = k.
Proof.
  revert l. induction k as [|k IH]; intros l Hl.
  - destruct l; [reflexivity | discriminate].
  - destruct l as [|a [|b t]]; cbn [length] in Hl; try lia.
    unfold hadd_pairs in *. cbn [pairs fmap list_fmap length].
    f_equal. apply IH. lia.
Qed.

Lemma lsum_hadd_pairs_id k l :
  length l = (2 * k)%nat → lsum (hadd_pairs id l) = lsum l.
Proof.
  revert k l.
  apply (even_length_ind (λ l, lsum (hadd_pairs id l) = lsum l));
    [reflexivity|]. intros a b t IH.
  unfold hadd_pairs in *. cbn [pairs fmap list_fmap lsum] in *.
  unfold id at 1. lia.
Qed.

Lemma wrap32_lsum_hadd_pairs k l :
  length l = (2 * k)%nat →
  wrap32 (lsum (hadd_pairs wrap32 l)) = wrap32 (lsum l).
Proof.
  revert k l.
  apply (even_length_ind
           (λ l, wrap32 (lsum (hadd_pairs wrap32 l)) = wrap32 (lsum l)));
    [reflexivity|]. intros a b t IH.
  unfold hadd_pairs in *. cbn [pairs fmap list_fmap lsum] in *.
  rewrite wrap32_add_l, <- wrap32_add_r, IH, wrap32_add_r. f_equal. lia.
Qed.

Lemma hadd_pairs_narrow_id narrow lo hi l :
  (∀ v, lo + lo ≤ v ≤ hi + hi → narrow v = v) →
  Forall (λ v, lo ≤ v ≤ hi) l →
  hadd_pairs narrow l = hadd_pairs id l.
Proof.
  intros Hn. revert l. fix IH 1. intros [|a [|b t]] Hl; try reflexivity.
  unfold hadd_pairs. cbn [pairs fmap list_fmap].
  apply Forall_cons in Hl as [Ha Hl]. apply Forall_cons in Hl as [Hb Hl].
  cbv beta in Ha, Hb. unfold id at 1. f_equal; [apply Hn; lia | apply IH, Hl].
Qed.

Lemma wrap32_lsum_add_epi32 a : ∀ b,
  length a = length b →
  wrap32 (lsum (add_epi32 a b)) = wrap32 (lsum a + lsum b).
Proof.
  unfold add_epi32.
  induction a as [|x a IH]; intros [|y b] Hl; try discriminate; [reflexivity|].
  cbn [zip_with lsum] in *.
  rewrite wrap32_add_l, <- wrap32_add_r, IH by (cbn in Hl; lia).
  rewrite wrap32_add_r. f_equal. lia.
Qed.

Lemma length_add_epi32 a b :
  length a = length b → length (add_epi32 a b) = length a.
Proof. intros Hl. unfold add_epi32. rewrite length_zip_with. lia. Qed.

Lemma lsum_zip_with_add a : ∀ b,
  length a = length b → lsum (zip_with Z.add a b) = lsum a + lsum b.
Proof.
  induction a as [|x a IH]; intros [|y b] Hl; try discriminate; [reflexivity|].
  cbn [zip_with lsum] in *. rewrite IH by (cbn in Hl; lia). lia.
Qed.

Lemma zip_with_narrow_id narrow lo hi a : ∀ b,
  (∀ v, lo + lo ≤ v ≤ hi + hi → narrow v = v) →
  Forall (λ v, lo ≤ v ≤ hi) a → Forall (λ v, lo ≤ v ≤ hi) b →
  zip_with (λ c p, narrow (c + p)) a b = zip_with Z.add a b.
Proof.
  intros b Hn. revert b.
  induction a as [|x a IH]; intros [|y b] Ha Hb; try reflexivity.
  apply Forall_cons in Ha as [Hx Ha]. apply Forall_cons in Hb as [Hy Hb].
  cbv beta in Hx, Hy.
  cbn [zip_with]. f_equal; [apply Hn; lia | apply IH; assumption].
Qed.

Lemma zip_with_mul_ones l : ∀ n,
  length l = n → zip_with Z.mul l (replicate n 1) = l.
Proof.
  induction l as [|x l IH]; intros n Hl; [destruct n; reflexivity|].
  destruct n as [|n]; [discriminate|]. cbn [replicate zip_with].
  rewrite IH by (cbn in Hl; lia). f_equal. lia.
Qed.

Lemma zip_with_fmap_seq {A B C : Type} (f : A → B → C) (g : nat → A)
    (h : nat → B) o count : ∀ start,
  zip_with f (g <$> seq start count) (h <$> seq (o + start) count)
  = (λ j, f (g j) (h (o + j)%nat)) <$> seq start count.
Proof.
  induction count as [|count IH]; intros start; [reflexivity|].
  cbn [seq fmap list_fmap zip_with]. f_equal.
  rewrite <- IH. do 3 f_equal. lia.
Qed.

Lemma Forall_fmap_seq (P : Z → Prop) (f : nat → Z) start count :
  (∀ j, (start ≤ j < start + count)%nat → P (f j)) →
  Forall P (f <$> seq start count).
Proof.
  intros Hf. apply Forall_fmap, Forall_forall. intros j Hj.
  apply list_elem_of_In, in_seq in Hj. apply Hf, Hj.
Qed.

Lemma lsum_chunk (f W X : nat → Z) count : ∀ start,
  (∀ j, f j = W j * X j) →
  weighted_sum W X start + lsum (f <$> seq start count)
  = weighted_sum W X (start + count).
Proof.
  induction count as [|count IH]; intros start Hf.
  - cbn [seq fmap list_fmap lsum]. rewrite Nat.add_0_r. lia.
  - cbn [seq fmap list_fmap lsum].
    replace (start + S count)%nat with (S start + count)%nat by lia.
    rewrite <- (IH (S start) Hf). cbn [weighted_sum]. rewrite Hf. lia.
Qed.

Lemma weighted_sum_ext W X W' X' n :
  (∀ j, (j < n)%nat → W j * X j = W' j * X' j) →
  weighted_sum W X n = weighted_sum W' X' n.
Proof.
  induction n as [|n IH]; intros Hj; [reflexivity|].
  cbn [weighted_sum]. rewrite IH by (intros; apply Hj; lia).
  rewrite Hj by lia. reflexivity.
Qed.

(** Terms that vanish past [n] do not change the sum. *)
Lemma weighted_sum_padding W X n n' :
  (n ≤ n')%nat → (∀ j, (n ≤ j < n')%nat → W j * X j = 0) →
  weighted_sum W X n' = weighted_sum W X n.
Proof.
  induction n' as [|n' IH]; intros Hle Hz.
  - replace n with 0%nat by lia. reflexivity.
  - destruct (decide (n = S n')) as [->|Hne]; [reflexivity|].
    cbn [weighted_sum]. rewrite IH by (try lia; intros; apply Hz; lia).
    rewrite Hz by lia. lia.
Qed.

Lemma weighted_sum_zero W X n :
  (∀ j, (j < n)%nat → W j * X j = 0) → weighted_sum W X n = 0.
Proof.
  intros Hz. rewrite (weighted_sum_padding W X 0 n); [reflexivity | lia |].
  intros; apply Hz; lia.
Qed.

(** ** The product chains of one chunk *)

(** [pmaddubsw] then [pmaddwd] by ones then [paddd]: with activations up
    to 127 nothing saturates, and the lanes of [sum] grow by the products
    of the chunk. *)
Lemma x86_chunk (lanes : nat) (xb wb : nat → byte) o start sum :
  length sum = lanes →
  (∀ j, (start ≤ j < start + 4 * lanes)%nat → u8 (xb j) ≤ 127) →
  let a := xb <$> seq start (4 * lanes) in
  let b := wb <$> seq (o + start) (4 * lanes) in
  let product := maddubs_epi16 a b in
  let product := madd_epi16 product (replicate (2 * lanes) 1) in
  length (add_epi32 sum product) = lanes ∧
  wrap32 (lsum (add_epi32 sum product))
  = wrap32 (lsum sum
            + lsum ((λ j, u8 (xb j) * s8 (wb (o + j)%nat))
                      <$> seq start (4 * lanes))).
Proof.
  intros Hsum Hx a b. subst a b. cbv zeta.
  unfold maddubs_epi16, madd_epi16.
  rewrite zip_with_fmap_seq.
  set (products := (λ j, u8 (xb j) * s8 (wb (o + j)%nat)) <$> seq start (4 * lanes)).
  assert (Hlen : length products = (2 * (2 * lanes))%nat).
  { unfold products. rewrite length_fmap, length_seq. lia. }
  assert (Hb : Forall (λ v, - 16256 ≤ v ≤ 16256) products).
  { apply Forall_fmap_seq. intros j Hj.
    pose proof (Hx j Hj). pose proof (u8_range (xb j)).
    pose proof (s8_range (wb (o + j)%nat)). nia. }
  rewrite (hadd_pairs_narrow_id sat16 (- 16256) 16256 products)
    by (try exact Hb; intros; apply sat16_id; lia).
  pose proof (length_hadd_pairs id _ _ Hlen) as Hl1.
  rewrite zip_with_mul_ones by exact Hl1.
  pose proof (length_hadd_pairs wrap32 _ _ Hl1) as Hl2.
  split.
  - rewrite length_add_epi32; lia.
  - rewrite wrap32_lsum_add_epi32 by lia.
    rewrite <- wrap32_add_r, (wrap32_lsum_hadd_pairs _ _ Hl1), wrap32_add_r.
    rewrite (lsum_hadd_pairs_id _ _ Hlen). reflexivity.
Qed.

(** [vmull_s8], [vmlal_s8], [vpadalq_s16] over sixteen bytes: with
    activations up to 127 the signed reading of the input is its value and
    the 16-bit lanes do not wrap. *)
Lemma neon_chunk (xb wb : nat → byte) o start sum :
  length sum = 4%nat →
  (∀ j, (start ≤ j < start + 16)%nat → u8 (xb j) ≤ 127) →
  let a0 := xb <$> seq start 8 in
  let b0 := wb <$> seq (o + start) 8 in
  let a1 := xb <$> seq (start + 8) 8 in
  let b1 := wb <$> seq (o + (start + 8)) 8 in
  let product := vmlal_s8 (vmull_s8 a0 b0) a1 b1 in
  length (vpadalq_s16 sum product) = 4%nat ∧
  wrap32 (lsum (vpadalq_s16 sum product))
  = wrap32 (lsum sum
            + lsum ((λ j, u8 (xb j) * s8 (wb (o + j)%nat)) <$> seq start 16)).
Proof.
  intros Hsum Hx a0 b0 a1 b1. subst a0 b0 a1 b1. cbv zeta.
  unfold vmlal_s8, vmull_s8. rewrite !zip_with_fmap_seq.
  set (f := λ j, s8 (xb j) * s8 (wb (o + j)%nat)).
  assert (Hf : ∀ j, (start ≤ j < start + 16)%nat →
                 f j = u8 (xb j) * s8 (wb (o + j)%nat) ∧ - 16256 ≤ f j ≤ 16256).
  { intros j Hj. unfold f. rewrite s8_small by (apply Hx, Hj).
    pose proof (Hx j Hj). pose proof (u8_range (xb j)).
    pose proof (s8_range (wb (o + j)%nat)). split; [reflexivity | nia]. }
  assert (H0 : Forall (λ v, - 16256 ≤ v ≤ 16256) (f <$> seq start 8))
    by (apply Forall_fmap_seq; intros; apply Hf; lia).
  assert (H1 : Forall (λ v, - 16256 ≤ v ≤ 16256) (f <$> seq (start + 8) 8))
    by (apply Forall_fmap_seq; intros; apply Hf; lia).
  rewrite (zip_with_narrow_id wrap16 (- 16256) 16256)
    by (try assumption; intros; apply wrap16_id; lia).
  set (product := zip_with Z.add (f <$> seq start 8) (f <$> seq (start + 8) 8)).
  assert (Hlen : length product = (2 * 4)%nat).
  { unfold product. rewrite length_zip_with, !length_fmap, !length_seq. reflexivity. }
  pose proof (length_hadd_pairs id _ _ Hlen) as Hl1.
  unfold vpadalq_s16. fold (add_epi32 sum (hadd_pairs id product)).
  split.
  - rewrite length_add_epi32; lia.
  - rewrite wrap32_lsum_add_epi32 by lia.
    rewrite (lsum_hadd_pairs_id _ _ Hlen). unfold product.
    rewrite lsum_zip_with_add by (rewrite !length_fmap, !length_seq; reflexivity).
    rewrite <- lsum_app, <- fmap_app, <- seq_app.
    do 3 f_equal. apply Forall_fmap_ext_1, Forall_forall. intros j Hj.
    apply list_elem_of_In, in_seq in Hj. apply Hf. lia.
Qed.

(** ** The four kernels, row by row *)

Section Rows.

Context (PreviousLayer : Type) `{!Layer.t PreviousLayer}.
Context (OutputDimensions : nat).
Context (self : AffineTransform.t PreviousLayer).
Context (input : nat → option byte) (i : nat).

Local Abbreviation kInputDimensions :=
  (AffineTransform.kInputDimensions PreviousLayer).
Local Abbreviation kPaddedInputDimensions :=
  (AffineTransform.kPaddedInputDimensions PreviousLayer).
Local Abbreviation weight_at := (AffineTransform.weight_at PreviousLayer self).
Local Abbreviation bias_value := (AffineTransform.bias_value PreviousLayer self).
Local Abbreviation weight_value :=
  (AffineTransform.weight_value PreviousLayer self).

Hypothesis Hsized : AffineTransform.well_sized PreviousLayer OutputDimensions self.
Hypothesis Hinput : ∀ j, (j < kPaddedInputDimensions)%nat → is_Some (input j).
Hypothesis Hi : (i < OutputDimensions)%nat.

(** The activations read through [input]. *)
Let xb (j : nat) : byte := default x00 (input j).
Let x (j : nat) : Z := u8 (xb j).
Let wb (k : nat) : byte := default x00 (weight_at k).

Lemma bias_at_Some :
  AffineTransform.bias_at PreviousLayer self i = Some (bias_value i).
Proof using Hsized Hi.
  destruct Hsized as [Hlb _].
  unfold AffineTransform.kOutputDimensions, AffineTransform.BiasType,
    AffineTransform.OutputType in Hlb. simpl sizeof in Hlb.
  unfold AffineTransform.bias_value, AffineTransform.bias_at,
    AffineTransform.BiasType, AffineTransform.OutputType. simpl sizeof.
  rewrite load_bytes_list by lia. reflexivity.
Qed.

Lemma bias_value_range : - 2 ^ 31 ≤ bias_value i < 2 ^ 31.
Proof using Hsized Hi.
  pose proof bias_at_Some as E. unfold AffineTransform.bias_at in E.
  destruct (load_bytes _ _ _) as [bs|]; [|discriminate].
  injection E as <-. apply int32_of_bytes_range.
Qed.

Lemma length_weights_ :
  length (AffineTransform.weights_ PreviousLayer self)
  = (OutputDimensions * kPaddedInputDimensions)%nat.
Proof using Hsized.
  destruct Hsized as [_ Hlw].
  unfold AffineTransform.kOutputDimensions, AffineTransform.WeightType in Hlw.
  simpl sizeof in Hlw. rewrite Nat.mul_1_r in Hlw. exact Hlw.
Qed.

Lemma row_in_weights j :
  (j ≤ kPaddedInputDimensions)%nat →
  (i * kPaddedInputDimensions + j ≤ OutputDimensions * kPaddedInputDimensions)%nat.
Proof using Hi. intros Hj. nia. Qed.

Lemma weight_at_Some j :
  (j < kPaddedInputDimensions)%nat →
  weight_at (i * kPaddedInputDimensions + j)
  = Some (wb (i * kPaddedInputDimensions + j)).
Proof using Hsized Hi.
  intros Hj. unfold wb, AffineTransform.weight_at.
  destruct (lookup_lt_is_Some_2 (AffineTransform.weights_ PreviousLayer self)
              (i * kPaddedInputDimensions + j)) as [y Hy].
  - rewrite length_weights_. pose proof (row_in_weights (S j) ltac:(lia)). lia.
  - rewrite Hy. reflexivity.
Qed.

Lemma input_Some j : (j < kPaddedInputDimensions)%nat → input j = Some (xb j).
Proof using Hinput.
  intros Hj. destruct (Hinput j Hj) as [y Hy]. unfold xb. rewrite Hy. reflexivity.
Qed.

Lemma load_input start count :
  (start + count ≤ kPaddedInputDimensions)%nat →
  load_bytes input start count = Some (xb <$> seq start count).
Proof using Hinput.
  intros Hle. apply load_bytes_Some. intros k Hk. apply input_Some.
  clear - Hle Hk. lia.
Qed.

Lemma load_weights start count :
  (start + count ≤ kPaddedInputDimensions)%nat →
  load_bytes weight_at (i * kPaddedInputDimensions + start) count
  = Some (wb <$> seq (i * kPaddedInputDimensions + start) count).
Proof using Hsized Hi.
  intros Hle. apply load_bytes_Some. intros k Hk.
  replace k with (i * kPaddedInputDimensions + (k - i * kPaddedInputDimensions))%nat
    by lia.
  apply weight_at_Some. lia.
Qed.

Lemma product_term j :
  u8 (xb j) * s8 (wb (i * kPaddedInputDimensions + j)) = weight_value i j * x j.
Proof using Type. unfold AffineTransform.weight_value, x, wb. ring. Qed.

Lemma chunk_sum acc start count :
  wrap32 (acc) = wrap32 (bias_value i + weighted_sum (weight_value i) x start) →
  wrap32 (acc + lsum ((λ j, u8 (xb j) * s8 (wb (i * kPaddedInputDimensions + j)))
                        <$> seq start count))
  = wrap32 (bias_value i + weighted_sum (weight_value i) x (start + count)).
Proof using Type.
  intros Hacc.
  rewrite <- (lsum_chunk _ (weight_value i) x count start product_term).
  rewrite <- wrap32_add_l, Hacc, wrap32_add_l. f_equal. ring.
Qed.

(** The portable loop. *)
Lemma row_portable_closed :
  AffineTransform.row_portable PreviousLayer self input i
  = Some (wrap32 (AffineTransform.affine_output PreviousLayer self x i
                    kInputDimensions)).
Proof using Hsized Hinput Hi.
  unfold AffineTransform.row_portable, AffineTransform.affine_output.
  rewrite bias_at_Some. cbn [mbind option_bind].
  pose proof (kPaddedInputDimensions_spec PreviousLayer) as [_ [HIP _]].
  fold kInputDimensions in HIP |- *.
  generalize dependent kInputDimensions. intros n.
  induction n as [|n IH]; intros Hn.
  - cbn [for_loop weighted_sum]. rewrite Z.add_0_r, wrap32_id; [reflexivity|].
    apply bias_value_range.
  - cbn [for_loop]. rewrite IH by lia. cbn [mbind option_bind].
    rewrite weight_at_Some by lia. cbn [mbind option_bind].
    rewrite input_Some by lia. cbn [mbind option_bind].
    rewrite wrap32_add_l. cbn [weighted_sum].
    unfold AffineTransform.weight_value, x, wb. do 2 f_equal. lia.
Qed.

Hypothesis Hsmall : ∀ j, (j < kPaddedInputDimensions)%nat → u8 (xb j) ≤ 127.

(** The chunk loop of the two x86 kernels, [4 * lanes] bytes at a time. *)
Lemma x86_loop (lanes : nat) (bias_lanes : list Z) body n :
  length bias_lanes = lanes → lsum bias_lanes = bias_value i →
  (n * (4 * lanes) ≤ kPaddedInputDimensions)%nat →
  (∀ j sum, body j sum =
     a ← load_bytes input (j * (4 * lanes)) (4 * lanes);
     b ← load_bytes weight_at (i * kPaddedInputDimensions + j * (4 * lanes))
           (4 * lanes);
     Some (add_epi32 sum
             (madd_epi16 (maddubs_epi16 a b) (replicate (2 * lanes) 1)))) →
  ∃ sum, for_loop n body bias_lanes = Some sum ∧ length sum = lanes ∧
    wrap32 (lsum sum)
    = wrap32 (bias_value i + weighted_sum (weight_value i) x (n * (4 * lanes))).
Proof using Hsized Hinput Hi Hsmall.
  intros Hl Hb Hn Hbody.
  apply (for_loop_invariant (λ n sum, length sum = lanes ∧
           wrap32 (lsum sum)
           = wrap32 (bias_value i
                     + weighted_sum (weight_value i) x (n * (4 * lanes))))).
  - split; [exact Hl|]. rewrite Hb. cbn [Nat.mul weighted_sum]. f_equal. lia.
  - intros j sum Hj [Hlen Hsum].
    assert (j * (4 * lanes) + 4 * lanes ≤ kPaddedInputDimensions)%nat by nia.
    rewrite Hbody, load_input by lia. cbn [mbind option_bind].
    rewrite load_weights by lia. cbn [mbind option_bind].
    eexists. split; [reflexivity|].
    destruct (x86_chunk lanes xb wb (i * kPaddedInputDimensions)
                (j * (4 * lanes)) sum Hlen) as [Hl' Hs'].
    { intros k Hk. apply Hsmall. lia. }
    split; [exact Hl'|]. rewrite Hs'.
    replace (S j * (4 * lanes))%nat with (j * (4 * lanes) + 4 * lanes)%nat by lia.
    apply chunk_sum, Hsum.
Qed.

Lemma row_avx2_closed :
  AffineTransform.row_avx2 PreviousLayer self input i
  = Some (wrap32 (AffineTransform.affine_output PreviousLayer self x i
                    kPaddedInputDimensions)).
Proof using Hsized Hinput Hi Hsmall.
  unfold AffineTransform.row_avx2, AffineTransform.affine_output.
  rewrite bias_at_Some. cbn [mbind option_bind].
  pose proof (kPaddedInputDimensions_chunks PreviousLayer AVX2) as Hc.
  cbn [kSimdWidth] in Hc |- *.
  edestruct (x86_loop 8 (_mm256_set_epi32 0 0 0 0 0 0 0 (bias_value i)))
    as (sum & E & Hlen & Hsum);
    [reflexivity | cbn [_mm256_set_epi32 lsum]; lia | | | ].
  3: { rewrite E. cbn [mbind option_bind].
       change (4 * 8)%nat with 32%nat in Hsum. rewrite Hc in Hsum. f_equal.
       rewrite <- Hsum.
       destruct sum as [|s0 [|s1 [|s2 [|s3 [|s4 [|s5 [|s6 [|s7 [|]]]]]]]]];
         try discriminate.
       unfold _mm256_hadd_epi32, _mm_hadd_epi32, hadd_pairs,
         _mm256_extracti128_si256, _mm_cvtsi128_si32, lane.
       cbn [take drop pairs fmap list_fmap app lookup list_lookup default lsum].
       unfold id.
       rewrite (wrap32_add (s0 + s1)), (wrap32_add (s4 + s5)), wrap32_add.
       f_equal. lia. }
  - change (4 * 8)%nat with 32%nat. lia.
  - intros j sum. reflexivity.
Qed.

Lemma row_ssse3_closed :
  AffineTransform.row_ssse3 PreviousLayer self input i
  = Some (wrap32 (AffineTransform.affine_output PreviousLayer self x i
                    kPaddedInputDimensions)).
Proof using Hsized Hinput Hi Hsmall.
  unfold AffineTransform.row_ssse3, AffineTransform.affine_output.
  rewrite bias_at_Some. cbn [mbind option_bind].
  pose proof (kPaddedInputDimensions_chunks PreviousLayer SSSE3) as Hc.
  cbn [kSimdWidth] in Hc |- *.
  edestruct (x86_loop 4 (_mm_cvtsi32_si128 (bias_value i)))
    as (sum & E & Hlen & Hsum);
    [reflexivity | cbn [_mm_cvtsi32_si128 lsum]; lia | | | ].
  3: { rewrite E. cbn [mbind option_bind].
       change (4 * 4)%nat with 16%nat in Hsum. rewrite Hc in Hsum. f_equal.
       rewrite <- Hsum.
       destruct sum as [|s0 [|s1 [|s2 [|s3 [|]]]]]; try discriminate.
       unfold _mm_hadd_epi32, hadd_pairs, _mm_cvtsi128_si32, lane.
       cbn [pairs fmap list_fmap app lookup list_lookup default lsum].
       unfold id. rewrite wrap32_add. f_equal. lia. }
  - change (4 * 4)%nat with 16%nat. lia.
  - intros j sum. reflexivity.
Qed.

Lemma row_neon_closed :
  AffineTransform.row_neon PreviousLayer self input i
  = Some (wrap32 (AffineTransform.affine_output PreviousLayer self x i
                    kPaddedInputDimensions)).
Proof using Hsized Hinput Hi Hsmall.
  unfold AffineTransform.row_neon, AffineTransform.affine_output.
  rewrite bias_at_Some. cbn [mbind option_bind].
  pose proof (kPaddedInputDimensions_chunks PreviousLayer NEON) as Hc.
  cbn [kSimdWidth] in Hc |- *.
  set (n := (kPaddedInputDimensions / 16)%nat) in *.
  assert (Hn : (n * 16 ≤ kPaddedInputDimensions)%nat) by lia.
  edestruct (for_loop_invariant (λ n sum, length sum = 4%nat ∧
           wrap32 (lsum sum)
           = wrap32 (bias_value i + weighted_sum (weight_value i) x (n * 16))) n)
    as (sum & E & Hlen & Hsum); [| |rewrite E].
  - split; [reflexivity|]. cbn [int32x4_init lsum Nat.mul weighted_sum].
    f_equal; lia.
  - intros j sum Hj [Hlen Hsum].
    unfold load_int8x8_t.
    rewrite (load_input (j * 2 * 8)) by lia. cbn [mbind option_bind].
    rewrite (load_weights (j * 2 * 8)) by lia. cbn [mbind option_bind].
    rewrite (load_input ((j * 2 + 1) * 8)) by lia. cbn [mbind option_bind].
    rewrite (load_weights ((j * 2 + 1) * 8)) by lia. cbn [mbind option_bind].
    eexists. split; [reflexivity|].
    replace (j * 2 * 8)%nat with (j * 16)%nat by lia.
    replace ((j * 2 + 1) * 8)%nat with (j * 16 + 8)%nat by lia.
    destruct (neon_chunk xb wb (i * kPaddedInputDimensions) (j * 16) sum Hlen)
      as [Hl' Hs'].
    { intros k Hk. apply Hsmall. lia. }
    split; [exact Hl'|]. rewrite Hs'.
    replace (S j * 16)%nat with (j * 16 + 16)%nat by lia.
    apply chunk_sum, Hsum.
  - cbn [mbind option_bind]. rewrite Hc in Hsum. f_equal. rewrite <- Hsum.
    destruct sum as [|s0 [|s1 [|s2 [|s3 [|]]]]]; try discriminate.
    unfold lane. cbn [lookup list_lookup default lsum]. unfold id.
    rewrite (wrap32_add_l (s0 + s1)), wrap32_add_l. f_equal. lia.
Qed.

End Rows.

(** The kernels return whatever the activations are. *)
Lemma x86_loop_returns (input weights : nat → option byte) lanes count o n
    (sum : list Z) :
  (∀ j, (j < n * count)%nat → is_Some (input j)) →
  (∀ j, (j < n * count)%nat → is_Some (weights (o + j)%nat)) →
  is_Some (for_loop n (λ j sum,
      a ← load_bytes input (j * count) count;
      b ← load_bytes weights (o + j * count) count;
      Some (add_epi32 sum
              (madd_epi16 (maddubs_epi16 a b) (replicate lanes 1)))) sum).
Proof.
  intros Hin Hw.
  edestruct (for_loop_invariant (λ _ (_ : list Z), True) n) as (s' & E & _);
    [exact I | | rewrite E; eauto].
  intros j s' Hj _. cbv beta.
  rewrite (load_bytes_Some input (λ k, default x00 (input k))).
  2: { intros k Hk. destruct (Hin k ltac:(nia)) as [y ->]. reflexivity. }
  cbn [mbind option_bind].
  rewrite (load_bytes_Some weights (λ k, default x00 (weights k))).
  2: { intros k Hk. replace k with (o + (k - o))%nat by lia.
       destruct (Hw (k - o)%nat ltac:(nia)) as [y ->]. reflexivity. }
  cbn [mbind option_bind]. eauto.
Qed.

Section RowsReturn.

Context (PreviousLayer : Type) `{!Layer.t PreviousLayer}.
Context (OutputDimensions : nat).
Context (self : AffineTransform.t PreviousLayer).
Context (input : nat → option byte) (i : nat).

Local Abbreviation kPaddedInputDimensions :=
  (AffineTransform.kPaddedInputDimensions PreviousLayer).

Hypothesis Hsized : AffineTransform.well_sized PreviousLayer OutputDimensions self.
Hypothesis Hinput : ∀ j, (j < kPaddedInputDimensions)%nat → is_Some (input j).
Hypothesis Hi : (i < OutputDimensions)%nat.

Lemma weight_at_is_Some j :
  (j < kPaddedInputDimensions)%nat →
  is_Some (AffineTransform.weight_at PreviousLayer self
             (i * kPaddedInputDimensions + j)).
Proof.
  intros Hj. rewrite (weight_at_Some _ OutputDimensions) by assumption. eauto.
Qed.

Lemma row_returns kernel :
  is_Some (AffineTransform.row PreviousLayer kernel self input i).
Proof.
  destruct kernel; cbn [AffineTransform.row].
  - unfold AffineTransform.row_avx2.
    rewrite (bias_at_Some _ OutputDimensions) by assumption.
    cbn [mbind option_bind].
    pose proof (kPaddedInputDimensions_chunks PreviousLayer AVX2) as Hc.
    cbn [kSimdWidth] in Hc |- *.
    edestruct (x86_loop_returns input
                 (AffineTransform.weight_at PreviousLayer self) 16 32
                 (i * kPaddedInputDimensions)) as [sum E];
      [| |unfold _mm256_load_si256, _mm256_maddubs_epi16, _mm256_madd_epi16,
            _mm256_add_epi32, _mm256_set1_epi16; rewrite E; cbn; eauto].
    + intros j Hj. apply Hinput. lia.
    + intros j Hj. apply weight_at_is_Some. lia.
  - unfold AffineTransform.row_ssse3.
    rewrite (bias_at_Some _ OutputDimensions) by assumption.
    cbn [mbind option_bind].
    pose proof (kPaddedInputDimensions_chunks PreviousLayer SSSE3) as Hc.
    cbn [kSimdWidth] in Hc |- *.
    edestruct (x86_loop_returns input
                 (AffineTransform.weight_at PreviousLayer self) 8 16
                 (i * kPaddedInputDimensions)) as [sum E];
      [| |unfold _mm_load_si128, _mm_maddubs_epi16, _mm_madd_epi16,
            _mm_add_epi32, _mm_set1_epi16; rewrite E; cbn; eauto].
    + intros j Hj. apply Hinput. lia.
    + intros j Hj. apply weight_at_is_Some. lia.
  - unfold AffineTransform.row_neon.
    rewrite (bias_at_Some _ OutputDimensions) by assumption.
    cbn [mbind option_bind].
    pose proof (kPaddedInputDimensions_chunks PreviousLayer NEON) as Hc.
    cbn [kSimdWidth] in Hc |- *.
    set (n := (kPaddedInputDimensions / 16)%nat) in *.
    edestruct (for_loop_invariant (λ _ (_ : list Z), True) n) as (s' & E & _);
      [exact I | | rewrite E; cbn; eauto].
    intros j s' Hj _. unfold load_int8x8_t.
    rewrite (load_input _ input) by (try assumption; lia).
    cbn [mbind option_bind].
    rewrite (load_weights _ OutputDimensions) by (try assumption; lia).
    cbn [mbind option_bind].
    rewrite (load_input _ input) by (try assumption; lia).
    cbn [mbind option_bind].
    rewrite (load_weights _ OutputDimensions) by (try assumption; lia).
    cbn [mbind option_bind]. eauto.
  - rewrite (row_portable_closed _ OutputDimensions) by assumption. eauto.
Qed.

End RowsReturn.

(** ** The loop over the outputs *)

Section OutputLoop.

Context (buffer : Z) (m1 : mem).

(** One iteration: [g i m] is the value computed for [output[i]] with the
    memory as it stands. *)
Let body (g : nat → mem → option Z) (i : nat) (m : mem) : option mem :=
  sum ← g i m; store_int32 m (buffer + Z.of_nat (i * 4)) sum.

(** Whatever is computed, only the output bytes change. *)
Lemma output_loop_frame g n mn :
  for_loop n (body g) m1 = Some mn →
  (∀ a, ¬ (buffer ≤ a < buffer + Z.of_nat (n * 4)) → mn !! a = m1 !! a) ∧
  (∀ a, is_Some (mn !! a) ↔ is_Some (m1 !! a)).
Proof.
  apply (for_loop_partial (λ n m,
    (∀ a, ¬ (buffer ≤ a < buffer + Z.of_nat (n * 4)) → m !! a = m1 !! a) ∧
    (∀ a, is_Some (m !! a) ↔ is_Some (m1 !! a)))).
  - split; reflexivity.
  - intros i t t' Hi [Hframe Hmap] Hbody. unfold body in Hbody.
    destruct (g i t) as [sum|]; [|discriminate].
    cbn [mbind option_bind] in Hbody. unfold store_int32 in Hbody.
    split.
    + intros a Ha.
      rewrite (store_bytes_frame _ _ _ _ Hbody) by (cbn [bytes_of_int32 length]; lia).
      apply Hframe. lia.
    + intros a. rewrite (store_bytes_mapped _ _ _ _ Hbody). apply Hmap.
Qed.

Lemma store_int32_returns m a v :
  (∀ x, a ≤ x < a + 4 → is_Some (m !! x)) → is_Some (store_int32 m a v).
Proof.
  intros Hm. apply store_bytes_success. intros k Hk.
  cbn [bytes_of_int32 length] in Hk. apply Hm. lia.
Qed.

(** With the output bytes mapped, the loop returns as soon as every
    computation does. *)
Lemma output_loop_returns g n :
  (∀ a, buffer ≤ a < buffer + Z.of_nat (n * 4) → is_Some (m1 !! a)) →
  (∀ i m, (i < n)%nat → (∀ a, is_Some (m !! a) ↔ is_Some (m1 !! a)) →
          is_Some (g i m)) →
  is_Some (for_loop n (body g) m1).
Proof.
  intros Hout Hg.
  edestruct (for_loop_invariant
               (λ (_ : nat) m, ∀ a, is_Some (m !! a) ↔ is_Some (m1 !! a))
               n (body g) m1) as (mn & E & _); [reflexivity | | rewrite E; eauto].
  intros i m Hi Hmap. unfold body.
  destruct (Hg i m Hi Hmap) as [sum ->]. cbn [mbind option_bind].
  destruct (store_int32_returns m (buffer + Z.of_nat (i * 4)) sum) as [m' E].
  { intros a Ha. apply Hmap, Hout. lia. }
  exists m'. split; [exact E|].
  intros a. unfold store_int32 in E.
  rewrite (store_bytes_mapped _ _ _ _ E). apply Hmap.
Qed.

(** When every computation returns [v i] on any memory that agrees with
    [m1] outside the output bytes, the loop stores [v 0], [v 1], ... in
    turn; two such loops end in the same memory. *)
Lemma output_loop_values g (v : nat → Z) n :
  (∀ a, buffer ≤ a < buffer + Z.of_nat (n * 4) → is_Some (m1 !! a)) →
  (∀ i m, (i < n)%nat →
     (∀ a, ¬ (buffer ≤ a < buffer + Z.of_nat (n * 4)) → m !! a = m1 !! a) →
     g i m = Some (v i)) →
  ∃ mn, for_loop n (body g) m1 = Some mn ∧
        for_loop n (body (λ i _, Some (v i))) m1 = Some mn ∧
        ∀ i, (i < n)%nat →
             load_int32 mn (buffer + Z.of_nat (i * 4)) = Some (wrap32 (v i)).
Proof.
  intros Hout Hg.
  edestruct (for_loop_invariant (λ k m,
      (k ≤ n)%nat ∧
      for_loop k (body (λ i _, Some (v i))) m1 = Some m ∧
      (∀ a, ¬ (buffer ≤ a < buffer + Z.of_nat (k * 4)) → m !! a = m1 !! a) ∧
      (∀ a, is_Some (m !! a) ↔ is_Some (m1 !! a)) ∧
      (∀ i, (i < k)%nat →
            load_int32 m (buffer + Z.of_nat (i * 4)) = Some (wrap32 (v i))))
      n (body g) m1) as (mn & E & _ & Ecanon & _ & _ & Hval).
  - split; [lia|]. split; [reflexivity|]. split; [reflexivity|].
    split; [reflexivity|]. intros i Hi. lia.
  - intros i m Hi (_ & Ecanon & Hframe & Hmap & Hval). unfold body at 1.
    rewrite (Hg i m Hi) by (intros a Ha; apply Hframe; lia).
    cbn [mbind option_bind].
    destruct (store_int32_returns m (buffer + Z.of_nat (i * 4)) (v i)) as [m' E].
    { intros a Ha. apply Hmap, Hout. lia. }
    exists m'. split; [exact E|].
    pose proof E as Es. unfold store_int32 in Es.
    split; [lia|]. split; [|split; [|split]].
    + cbn [for_loop]. rewrite Ecanon. cbn [mbind option_bind].
      unfold body. cbn [mbind option_bind]. exact E.
    + intros a Ha.
      rewrite (store_bytes_frame _ _ _ _ Es) by (cbn [bytes_of_int32 length]; lia).
      apply Hframe. lia.
    + intros a. rewrite (store_bytes_mapped _ _ _ _ Es). apply Hmap.
    + intros i' Hi'. destruct (decide (i' = i)) as [->|Hne].
      * apply (load_int32_store_int32 _ _ _ _ E).
      * rewrite (load_int32_agree m m'); [apply Hval; lia|].
        intros a Ha. apply (store_bytes_frame _ _ _ _ Es).
        cbn [bytes_of_int32 length]. lia.
  - exists mn. auto.
Qed.

End OutputLoop.

(** ** Forward propagation *)

Section Propagation.

Context `{NnueCommon}.
Context (PreviousLayer : Type) `{!Layer.t PreviousLayer}.
Context (OutputDimensions : nat).

Local Abbreviation kInputDimensions :=
  (AffineTransform.kInputDimensions PreviousLayer).
Local Abbreviation kPaddedInputDimensions :=
  (AffineTransform.kPaddedInputDimensions PreviousLayer).
Local Abbreviation kSelfBufferSize :=
  (AffineTransform.kSelfBufferSize OutputDimensions).
Local Abbreviation previous_layer_ :=
  (AffineTransform.previous_layer_ PreviousLayer).
Local Abbreviation well_sized :=
  (AffineTransform.well_sized PreviousLayer OutputDimensions).
Local Abbreviation input_mapped := (AffineTransform.input_mapped PreviousLayer).
Local Abbreviation output_mapped := (AffineTransform.output_mapped OutputDimensions).
Local Abbreviation input_apart :=
  (AffineTransform.input_apart PreviousLayer OutputDimensions).
Local Abbreviation zero_padding :=
  (AffineTransform.zero_padding PreviousLayer OutputDimensions).
Local Abbreviation input_value := AffineTransform.input_value.
Local Abbreviation weight_value := (AffineTransform.weight_value PreviousLayer).
Local Abbreviation bias_value := (AffineTransform.bias_value PreviousLayer).
Local Abbreviation affine_output := (AffineTransform.affine_output PreviousLayer).
Local Abbreviation row := (AffineTransform.row PreviousLayer).
Local Abbreviation Propagate :=
  (AffineTransform.Propagate PreviousLayer OutputDimensions).

Lemma Propagate_eq kernel self transformed_features buffer m input m1 :
  Layer.Propagate (previous_layer_ self) transformed_features
    (buffer + Z.of_nat kSelfBufferSize) m = Some (input, m1) →
  Propagate kernel self transformed_features buffer m =
    (mn ← for_loop OutputDimensions (λ i m,
           sum ← (λ i m, row kernel self (λ j, m !! (input + Z.of_nat j)) i) i m;
           store_int32 m (buffer + Z.of_nat (i * 4)) sum) m1;
     Some (buffer, mn)).
Proof.
  intros E. unfold AffineTransform.Propagate. rewrite E. reflexivity.
Qed.

Lemma Propagate_None kernel self transformed_features buffer m :
  Layer.Propagate (previous_layer_ self) transformed_features
    (buffer + Z.of_nat kSelfBufferSize) m = None →
  Propagate kernel self transformed_features buffer m = None.
Proof. intros E. unfold AffineTransform.Propagate. rewrite E. reflexivity. Qed.

Section Values.

Context (self : AffineTransform.t PreviousLayer).
Context (buffer input : Z) (m1 m : mem) (i : nat).

Hypothesis Hsized : well_sized self.
Hypothesis Hin : input_mapped m1 input.
Hypothesis Hapart : input_apart buffer input.
Hypothesis Hi : (i < OutputDimensions)%nat.
Hypothesis Hagree :
  ∀ a, ¬ (buffer ≤ a < buffer + Z.of_nat (OutputDimensions * 4)) →
       m !! a = m1 !! a.

Lemma reads_agree j :
  (j < kPaddedInputDimensions)%nat →
  m !! (input + Z.of_nat j) = m1 !! (input + Z.of_nat j).
Proof using Hapart Hagree. intros Hj. apply Hagree, Hapart, Hj. Qed.

Lemma reads_mapped j :
  (j < kPaddedInputDimensions)%nat → is_Some (m !! (input + Z.of_nat j)).
Proof using Hin Hapart Hagree. intros Hj. rewrite reads_agree by exact Hj. apply Hin, Hj. Qed.

Lemma affine_output_agree n :
  (n ≤ kPaddedInputDimensions)%nat →
  affine_output self (λ j, u8 (default x00 (m !! (input + Z.of_nat j)))) i n
  = affine_output self (input_value m1 input) i n.
Proof using Hapart Hagree.
  intros Hn. unfold AffineTransform.affine_output. f_equal.
  apply weighted_sum_ext. intros j Hj. unfold AffineTransform.input_value.
  rewrite reads_agree by (clear - Hn Hj; lia). reflexivity.
Qed.

(** Under I1 the columns past [kInputDimensions] add nothing. *)
Lemma affine_output_padding :
  zero_padding self m1 input →
  affine_output self (input_value m1 input) i kPaddedInputDimensions
  = affine_output self (input_value m1 input) i kInputDimensions.
Proof using Hi.
  intros [Hw Hx]. unfold AffineTransform.affine_output. f_equal.
  apply weighted_sum_padding.
  - apply kPaddedInputDimensions_spec.
  - intros j Hj. rewrite (Hw i j Hi Hj). ring.
Qed.

Lemma row_portable_value :
  zero_padding self m1 input →
  row Portable self (λ j, m !! (input + Z.of_nat j)) i
  = Some (wrap32 (affine_output self (input_value m1 input) i
                    kPaddedInputDimensions)).
Proof using Hsized Hin Hapart Hi Hagree.
  intros Hpad. cbn [AffineTransform.row].
  rewrite (row_portable_closed _ OutputDimensions)
    by (try assumption; apply reads_mapped).
  rewrite affine_output_agree by apply kPaddedInputDimensions_spec.
  rewrite affine_output_padding by exact Hpad. reflexivity.
Qed.

Lemma row_value kernel :
  zero_padding self m1 input →
  (∀ j, (j < kInputDimensions)%nat → input_value m1 input j ≤ 127) →
  row kernel self (λ j, m !! (input + Z.of_nat j)) i
  = Some (wrap32 (affine_output self (input_value m1 input) i
                    kPaddedInputDimensions)).
Proof using Hsized Hin Hapart Hi Hagree.
  intros Hpad Hsmall.
  assert (Hs : ∀ j, (j < kPaddedInputDimensions)%nat →
                    u8 (default x00 (m !! (input + Z.of_nat j))) ≤ 127).
  { intros j Hj. rewrite reads_agree by exact Hj.
    fold (input_value m1 input j).
    destruct (decide (j < kInputDimensions)%nat) as [Hlt|Hge].
    - apply Hsmall, Hlt.
    - destruct Hpad as [_ Hx]. rewrite Hx by lia. lia. }
  destruct kernel.
  - cbn [AffineTransform.row].
    rewrite (row_avx2_closed _ OutputDimensions)
      by (try assumption; apply reads_mapped).
    rewrite affine_output_agree by reflexivity. reflexivity.
  - cbn [AffineTransform.row].
    rewrite (row_ssse3_closed _ OutputDimensions)
      by (try assumption; apply reads_mapped).
    rewrite affine_output_agree by reflexivity. reflexivity.
  - cbn [AffineTransform.row].
    rewrite (row_neon_closed _ OutputDimensions)
      by (try assumption; apply reads_mapped).
    rewrite affine_output_agree by reflexivity. reflexivity.
  - apply row_portable_value, Hpad.
Qed.

End Values.

(** The loop of [Propagate], for a kernel that computes the prescribed
    output: it returns, and stores the prescribed outputs in turn. *)
Lemma Propagate_values kernel self transformed_features buffer m input m1 :
  well_sized self →
  Layer.Propagate (previous_layer_ self) transformed_features
    (buffer + Z.of_nat kSelfBufferSize) m = Some (input, m1) →
  input_mapped m1 input → output_mapped m1 buffer → input_apart buffer input →
  zero_padding self m1 input →
  (kernel = Portable ∨
   ∀ j, (j < kInputDimensions)%nat → input_value m1 input j ≤ 127) →
  let v i := wrap32 (affine_output self (input_value m1 input) i
                       kPaddedInputDimensions) in
  ∃ m',
    Propagate kernel self transformed_features buffer m = Some (buffer, m') ∧
    for_loop OutputDimensions (λ i m,
        sum ← Some (v i); store_int32 m (buffer + Z.of_nat (i * 4)) sum) m1
      = Some m' ∧
    ∀ i, (i < OutputDimensions)%nat →
         load_int32 m' (buffer + Z.of_nat (i * 4)) = Some (v i).
Proof.
  intros Hsized E Hin Hout Hapart Hpad Hk v.
  rewrite (Propagate_eq _ _ _ _ _ _ _ E).
  destruct (output_loop_values buffer m1
              (λ i m, row kernel self (λ j, m !! (input + Z.of_nat j)) i)
              v OutputDimensions) as (m' & Eloop & Ecanon & Hval).
  - exact Hout.
  - intros i m0 Hi Hagree. destruct Hk as [->|Hsmall].
    + apply (row_portable_value self buffer); assumption.
    + apply (row_value self buffer); assumption.
  - exists m'. rewrite Eloop. cbn [mbind option_bind].
    split; [reflexivity|]. split; [exact Ecanon|].
    intros i Hi. rewrite (Hval i Hi). unfold v. rewrite wrap32_idemp. reflexivity.
Qed.

(** C1, amended. With the activations in the range 0..127, the range
    within which [pmaddubsw] does not saturate and the signed reading of a
    byte is its value, and under I1, every kernel leaves the memory the
    portable loop leaves and returns the same pointer; that run does
    return. *)
Theorem Propagate_kernels_agree kernel self transformed_features buffer m
    input m1 :
  well_sized self →
  Layer.Propagate (previous_layer_ self) transformed_features
    (buffer + Z.of_nat kSelfBufferSize) m = Some (input, m1) →
  input_mapped m1 input → output_mapped m1 buffer → input_apart buffer input →
  zero_padding self m1 input →
  (∀ j, (j < kInputDimensions)%nat → input_value m1 input j ≤ 127) →
  Propagate kernel self transformed_features buffer m
  = Propagate Portable self transformed_features buffer m
  ∧ is_Some (Propagate Portable self transformed_features buffer m).
Proof.
  intros Hsized E Hin Hout Hapart Hpad Hsmall.
  destruct (Propagate_values kernel self _ _ _ _ _ Hsized E Hin Hout Hapart
              Hpad (or_intror Hsmall)) as (m' & Ek & Ecanon & _).
  destruct (Propagate_values Portable self _ _ _ _ _ Hsized E Hin Hout Hapart
              Hpad (or_introl eq_refl)) as (m'' & Ep & Ecanon' & _).
  rewrite Ek, Ep. rewrite Ecanon in Ecanon'. injection Ecanon' as <-.
  split; [reflexivity | eauto].
Qed.

(** C2, amended. Under I1, with the portable kernel, or with a vector
    kernel (AVX2, SSSE3, NEON) when the activations lie in 0..127,
    [Propagate] returns [buffer], and for every [i] below
    [OutputDimensions] the 32-bit value stored in [output[i]] is [bias[i]]
    plus the sum over [j] below [kPaddedInputDimensions] of
    [weight[i][j] * input[j]], held as a 32-bit signed integer: it is that
    number itself when it fits 32 bits (the range the quantization is
    assumed to keep). The sum is the same taken over [j] below
    [kInputDimensions]. With all weights of the row and all activations
    zero, [output[i]] is [bias[i]]. *)
Theorem Propagate_affine kernel self transformed_features buffer m input m1 :
  well_sized self →
  Layer.Propagate (previous_layer_ self) transformed_features
    (buffer + Z.of_nat kSelfBufferSize) m = Some (input, m1) →
  input_mapped m1 input → output_mapped m1 buffer → input_apart buffer input →
  zero_padding self m1 input →
  (kernel = Portable ∨
   ∀ j, (j < kInputDimensions)%nat → input_value m1 input j ≤ 127) →
  ∃ m',
    Propagate kernel self transformed_features buffer m = Some (buffer, m') ∧
    ∀ i, (i < OutputDimensions)%nat →
      let x := input_value m1 input in
      let output_i := load_int32 m' (buffer + Z.of_nat (i * 4)) in
      output_i = Some (wrap32 (affine_output self x i kPaddedInputDimensions))
      ∧ affine_output self x i kPaddedInputDimensions
        = affine_output self x i kInputDimensions
      ∧ (- 2 ^ 31 ≤ affine_output self x i kPaddedInputDimensions < 2 ^ 31 →
         output_i = Some (bias_value self i
                          + weighted_sum (weight_value self i) x
                              kPaddedInputDimensions))
      ∧ ((∀ j, (j < kPaddedInputDimensions)%nat →
               weight_value self i j = 0 ∧ x j = 0) →
         output_i = Some (bias_value self i)).
Proof.
  intros Hsized E Hin Hout Hapart Hpad Hkernel.
  destruct (Propagate_values kernel self _ _ _ _ _ Hsized E Hin Hout Hapart
              Hpad Hkernel) as (m' & Ep & _ & Hval).
  exists m'. split; [exact Ep|]. intros i Hi x output_i. subst output_i.
  rewrite (Hval i Hi). fold x.
  split; [reflexivity|]. split; [|split].
  - apply (affine_output_padding self input m1 i Hi Hpad).
  - intros Hfit. rewrite wrap32_id by exact Hfit. reflexivity.
  - intros Hzero. unfold AffineTransform.affine_output.
    rewrite weighted_sum_zero.
    + rewrite Z.add_0_r, wrap32_id; [reflexivity|].
      apply (bias_value_range _ OutputDimensions); assumption.
    + intros j Hj. destruct (Hzero j Hj) as [-> _]. ring.
Qed.

(** [Propagate] returns when the previous layer does, the arrays have
    their sizes and the bytes it reads and writes are mapped. *)
Lemma Propagate_returns kernel self transformed_features buffer m input m1 :
  Layer.Propagate (previous_layer_ self) transformed_features
    (buffer + Z.of_nat kSelfBufferSize) m = Some (input, m1) →
  well_sized self → input_mapped m1 input → output_mapped m1 buffer →
  ∃ m', Propagate kernel self transformed_features buffer m = Some (buffer, m').
Proof.
  intros E Hsized Hin Hout.
  rewrite (Propagate_eq _ _ _ _ _ _ _ E).
  destruct (output_loop_returns buffer m1
              (λ i m, row kernel self (λ j, m !! (input + Z.of_nat j)) i)
              OutputDimensions) as [mn Eloop].
  - exact Hout.
  - intros i m0 Hi Hmap.
    apply (row_returns _ OutputDimensions); try assumption.
    intros j Hj. apply Hmap, Hin, Hj.
  - exists mn. rewrite Eloop. reflexivity.
Qed.

(** C7. A run of [Propagate] that returns has called the previous layer's
    [Propagate] on the buffer from offset [kSelfBufferSize] on; it returns
    [buffer]; every byte outside the [OutputDimensions * 4] bytes at
    [buffer] is as the previous layer left it, and no address is mapped or
    unmapped. Those bytes end before offset [kSelfBufferSize]. The run does
    return when the previous layer does, the arrays have their sizes and
    the bytes of the input vector and of the output are mapped. *)
Theorem Propagate_frame kernel self transformed_features buffer m :
  (∀ output m',
     Propagate kernel self transformed_features buffer m = Some (output, m') →
     ∃ input m1,
       Layer.Propagate (previous_layer_ self) transformed_features
         (buffer + Z.of_nat kSelfBufferSize) m = Some (input, m1) ∧
       output = buffer ∧
       (∀ a, ¬ (buffer ≤ a < buffer + Z.of_nat (OutputDimensions * 4)) →
             m' !! a = m1 !! a) ∧
       (∀ a, is_Some (m' !! a) ↔ is_Some (m1 !! a)))
  ∧ ((0 < kCacheLineSize)%nat →
     buffer + Z.of_nat (OutputDimensions * 4)
       ≤ buffer + Z.of_nat kSelfBufferSize)
  ∧ (∀ input m1,
       Layer.Propagate (previous_layer_ self) transformed_features
         (buffer + Z.of_nat kSelfBufferSize) m = Some (input, m1) →
       well_sized self → input_mapped m1 input → output_mapped m1 buffer →
       ∃ m', Propagate kernel self transformed_features buffer m
             = Some (buffer, m')).
Proof.
  split; [|split].
  - intros output m' Ep.
    destruct (Layer.Propagate (previous_layer_ self) transformed_features
                (buffer + Z.of_nat kSelfBufferSize) m) as [[input m1]|] eqn:E.
    2: { rewrite (Propagate_None _ _ _ _ _ E) in Ep. discriminate. }
    rewrite (Propagate_eq _ _ _ _ _ _ _ E) in Ep.
    destruct (for_loop _ _ m1) as [mn|] eqn:Eloop; [|discriminate].
    cbn [mbind option_bind] in Ep. injection Ep as <- <-.
    apply output_loop_frame in Eloop as [Hframe Hmap].
    exists input, m1. auto.
  - intros Hc. pose proof (kSelfBufferSize_spec OutputDimensions Hc). lia.
  - intros input m1 E Hsized Hin Hout.
    apply (Propagate_returns _ _ _ _ _ _ _ E Hsized Hin Hout).
Qed.

(** C9. In the portable path every array access is in bounds. For [i]
    below [OutputDimensions] and [j] below [kInputDimensions], the weight
    index [i * kPaddedInputDimensions + j] is below [OutputDimensions *
    kPaddedInputDimensions], the length of [weights_]; the four bytes of
    [biases_[i]] are within [biases_]; [j] is below
    [kPaddedInputDimensions], the length of the input vector. So the row
    computation returns for every input vector of that length, and so does
    [Propagate] when the bytes of that vector and of the output are
    mapped. *)
Theorem portable_accesses_in_bounds self i :
  well_sized self → (i < OutputDimensions)%nat →
  (∀ j, (j < kInputDimensions)%nat →
     (i * kPaddedInputDimensions + j
        < OutputDimensions * kPaddedInputDimensions)%nat ∧
     (i * kPaddedInputDimensions + j
        < length (AffineTransform.weights_ PreviousLayer self))%nat ∧
     is_Some (AffineTransform.weight_at PreviousLayer self
                (i * kPaddedInputDimensions + j)) ∧
     (j < kPaddedInputDimensions)%nat)
  ∧ (i * 4 + 4 ≤ length (AffineTransform.biases_ PreviousLayer self))%nat
  ∧ is_Some (AffineTransform.bias_at PreviousLayer self i)
  ∧ (∀ input : nat → option byte,
       (∀ j, (j < kPaddedInputDimensions)%nat → is_Some (input j)) →
       is_Some (AffineTransform.row_portable PreviousLayer self input i))
  ∧ (∀ transformed_features buffer m input m1,
       Layer.Propagate (previous_layer_ self) transformed_features
         (buffer + Z.of_nat kSelfBufferSize) m = Some (input, m1) →
       input_mapped m1 input → output_mapped m1 buffer →
       is_Some (Propagate Portable self transformed_features buffer m)).
Proof.
  intros Hsized Hi.
  pose proof (kPaddedInputDimensions_spec PreviousLayer) as [_ [HIP _]].
  split; [|split; [|split; [|split]]].
  - intros j Hj.
    assert (j < kPaddedInputDimensions)%nat as HjP by lia.
    pose proof (row_in_weights PreviousLayer OutputDimensions i Hi (S j) HjP).
    rewrite (length_weights_ _ OutputDimensions) by exact Hsized.
    split; [lia|]. split; [lia|]. split; [|exact HjP].
    apply (weight_at_is_Some _ OutputDimensions); assumption.
  - destruct Hsized as [Hlb _].
    unfold AffineTransform.kOutputDimensions, AffineTransform.BiasType,
      AffineTransform.OutputType in Hlb. simpl sizeof in Hlb. lia.
  - rewrite (bias_at_Some _ OutputDimensions) by assumption. eauto.
  - intros input Hinput.
    apply (row_returns _ OutputDimensions self input i Hsized Hinput Hi Portable).
  - intros tf buffer m input m1 E Hin Hout.
    destruct (Propagate_returns Portable _ _ _ _ _ _ E Hsized Hin Hout)
      as [m' ->]. eauto.
Qed.

End Propagation.

(** * Concrete evaluations *)

Import Fixture.

(** ** The fixtures meet the preconditions *)

Lemma below_cases (P : nat → Prop) n :
  Forall P (seq 0 n) → ∀ j, (j < n)%nat → P j.
Proof.
  intros HF j Hj. rewrite Forall_forall in HF. apply HF.
  apply list_elem_of_In, in_seq. lia.
Qed.

Lemma between_cases (P : Z → Prop) lo n :
  Forall (λ k, P (lo + Z.of_nat k)) (seq 0 n) →
  ∀ a, lo ≤ a < lo + Z.of_nat n → P a.
Proof.
  intros HF a Ha. replace a with (lo + Z.of_nat (Z.to_nat (a - lo))) by lia.
  apply (below_cases _ n HF). lia.
Qed.

Lemma layer_1x2_well_sized bias w0 w1 :
  AffineTransform.well_sized (Source 2) 1 (layer_1x2 bias w0 w1).
Proof. split; reflexivity. Qed.

Lemma memory_1x2_input_mapped x0 x1 :
  AffineTransform.input_mapped (Source 2) (memory_1x2 x0 x1) 1000.
Proof.
  refine (below_cases
            (λ j, is_Some (memory_1x2 x0 x1 !! (1000 + Z.of_nat j))) 32 _).
  cbn [seq]. repeat (apply Forall_cons_2; [vm_compute; eauto|]).
  apply Forall_nil_2.
Qed.

Lemma memory_1x2_output_mapped x0 x1 :
  AffineTransform.output_mapped 1 (memory_1x2 x0 x1) 0.
Proof.
  refine (between_cases (λ a, is_Some (memory_1x2 x0 x1 !! a)) 0 4 _).
  cbn [seq]. repeat (apply Forall_cons_2; [vm_compute; eauto|]).
  apply Forall_nil_2.
Qed.

Lemma memory_1x2_input_apart : AffineTransform.input_apart (Source 2) 1 0 1000.
Proof. intros j Hj. unfold AffineTransform.kOutputDimensions. lia. Qed.

Lemma fixture_zero_padding bias w0 w1 x0 x1 :
  AffineTransform.zero_padding (Source 2) 1 (layer_1x2 bias w0 w1)
    (memory_1x2 x0 x1) 1000.
Proof.
  split.
  - intros i j Hi [Hlo Hhi]. replace i with 0%nat by (cbv in Hi; lia).
    change (AffineTransform.kInputDimensions (Source 2)) with 2%nat in Hlo.
    revert j Hhi Hlo.
    refine (below_cases
              (λ j, (2 ≤ j)%nat →
                    AffineTransform.weight_value (Source 2)
                      (layer_1x2 bias w0 w1) 0 j = 0) 32 _).
    cbn [seq].
    repeat (apply Forall_cons_2;
            [intros Hlo; first [reflexivity | exfalso; clear - Hlo; lia]|]).
    apply Forall_nil_2.
  - intros j [Hlo Hhi].
    change (AffineTransform.kInputDimensions (Source 2)) with 2%nat in Hlo.
    revert j Hhi Hlo.
    refine (below_cases
              (λ j, (2 ≤ j)%nat →
                    AffineTransform.input_value (memory_1x2 x0 x1) 1000 j = 0)
              32 _).
    cbn [seq].
    repeat (apply Forall_cons_2;
            [intros Hlo; first [reflexivity | exfalso; clear - Hlo; lia]|]).
    apply Forall_nil_2.
Qed.

Lemma fixture_activations_small :
  ∀ j, (j < AffineTransform.kInputDimensions (Source 2))%nat →
       AffineTransform.input_value (memory_1x2 x7f x7f) 1000 j ≤ 127.
Proof.
  refine (below_cases _ 2 _). cbn [seq].
  repeat (apply Forall_cons_2; [vm_compute; discriminate|]). apply Forall_nil_2.
Qed.

(** ** Hash and sizes *)

Lemma GetHashValue_sensitivity_witness :
  AffineTransform.GetHashValue (Source 2) 1
    ≠ AffineTransform.GetHashValue (Source 2) 2
  ∧ AffineTransform.GetHashValue (Source 2) 1
    ≠ AffineTransform.GetHashValue (Source 3) 1.
Proof.
  destruct (GetHashValue_sensitivity (Source 2) (Source 3) 1 2)
    as (_ & Hdims & Hupstream & _).
  split.
  - apply Hdims; [reflexivity | reflexivity | discriminate].
  - apply Hupstream; [split; [discriminate | reflexivity]
                     | split; [discriminate | reflexivity] | discriminate].
Defined.

Lemma buffer_and_padding_sizes_witness :
  (0 < 64)%nat
  ∧ (AffineTransform.kSelfBufferSize 1 `mod` 64 = 0)%nat
  ∧ (4 ≤ AffineTransform.kSelfBufferSize 1 < 4 + 64)%nat
  ∧ (2 ≤ AffineTransform.kPaddedInputDimensions (Source 2) < 2 + 32)%nat
  ∧ (AffineTransform.kPaddedInputDimensions (Source 2) `mod` 16 = 0)%nat.
Proof.
  assert (Hc : (0 < kCacheLineSize)%nat) by (cbn; lia).
  destruct (buffer_and_padding_sizes (Source 2) 1 Hc)
    as ((Hmod & Hself & _) & _ & (_ & Hpad & _) & Hwidth).
  split; [lia|]. split; [exact Hmod|]. split; [exact Hself|].
  split; [exact Hpad | exact (Hwidth NEON)].
Defined.

(** ** Loading *)

(** Two bytes where the biases need four: the load fails, and the two
    bytes have replaced the first half of [biases_[0]]. *)
Lemma ReadParameters_failure_overwrites :
  let self := layer_1x2 5 x01 x02 in
  let r := AffineTransform.ReadParameters (Source 2) 1 self (file [x09; x08]) in
  r.1.1 = false
  ∧ AffineTransform.biases_ (Source 2) self = [x05; x00; x00; x00]
  ∧ AffineTransform.biases_ (Source 2) r.1.2 = [x09; x08; x00; x00]
  ∧ AffineTransform.biases_ (Source 2) r.1.2
    ≠ AffineTransform.biases_ (Source 2) self.
Proof. vm_compute. repeat split; discriminate. Qed.

Lemma ReadParameters_failure_witness :
  let self := layer_1x2 5 x01 x02 in
  let r := AffineTransform.ReadParameters (Source 2) 1 self (file [x09; x08]) in
  r.1.1 = false
  ∧ AffineTransform.biases_ (Source 2) r.1.2 = [x09; x08; x00; x00]
  ∧ AffineTransform.weights_ (Source 2) r.1.2
    = AffineTransform.weights_ (Source 2) self.
Proof.
  intros self r.
  assert (E : Layer.ReadParameters
                (AffineTransform.previous_layer_ (Source 2) self)
                (file [x09; x08]) = (true, source 2, file [x09; x08]))
    by reflexivity.
  destruct (ReadParameters_failure (Source 2) 1 self (file [x09; x08])
              true (source 2) (file [x09; x08]) E)
    as (Hiff & _ & Hstored).
  destruct (Hstored eq_refl eq_refl) as [Hb Hw].
  split; [|split].
  - destruct (r.1.1) eqn:Hr; [|reflexivity].
    apply Hiff in Hr as (_ & _ & Hlen). cbn in Hlen. lia.
  - exact Hb.
  - exact Hw.
Defined.

(** A stream holding the bias [-2], the weight row [1, -1, 0, ...], and
    one byte more. *)
Lemma ReadParameters_format_witness :
  let bs := [xfe; xff; xff; xff] in
  let ws := x01 :: xff :: replicate 30 x00 in
  let self := layer_1x2 5 x01 x02 in
  let self' :=
    {| AffineTransform.previous_layer_ := source 2;
       AffineTransform.biases_ := bs; AffineTransform.weights_ := ws |} in
  let failed :=
    {| istream.pending := bs; istream.at_end := istream.end_of_file;
       istream.eofbit := false; istream.failbit := true;
       istream.badbit := false |} in
  AffineTransform.ReadParameters (Source 2) 1 self (file (bs ++ ws ++ [xaa]))
    = (true, self', file [xaa])
  ∧ AffineTransform.bias_at (Source 2) self' 0 = Some (- 2)
  ∧ s8 <$> AffineTransform.weight_at (Source 2) self' 1 = Some (- 1)
  ∧ AffineTransform.ReadParameters (Source 2) 1 self failed
    = (false, self, failed).
Proof.
  intros bs ws self self' failed.
  assert (E : Layer.ReadParameters
                (AffineTransform.previous_layer_ (Source 2) self)
                (file (bs ++ ws ++ [xaa]))
              = (true, source 2, file (bs ++ ws ++ [xaa]))) by reflexivity.
  assert (E' : Layer.ReadParameters
                 (AffineTransform.previous_layer_ (Source 2) self) failed
               = (false, source 2, failed)) by reflexivity.
  destruct (ReadParameters_format (Source 2) 1 self (file (bs ++ ws ++ [xaa]))
              true (source 2) (file (bs ++ ws ++ [xaa])) bs ws [xaa]
              (layer_1x2_well_sized 5 x01 x02) E) as [_ Hok].
  destruct (Hok eq_refl eq_refl eq_refl eq_refl eq_refl) as (Hr & Hb & Hw).
  destruct (ReadParameters_format (Source 2) 1 self failed
              false (source 2) failed bs ws [xaa]
              (layer_1x2_well_sized 5 x01 x02) E') as [Hfail _].
  split; [exact Hr|]. split; [|split].
  - exact (Hb 0%nat ltac:(cbn; lia)).
  - destruct (Hw 0%nat 1%nat) as [Hs _]; [cbn; lia | cbn; lia |].
    exact Hs.
  - exact (Hfail eq_refl).
Defined.

Lemma ReadParameters_trailing_bytes_witness :
  let bs := [xfe; xff; xff; xff] in
  let ws := x01 :: xff :: replicate 30 x00 in
  let r := AffineTransform.ReadParameters (Source 2) 1 (layer_1x2 5 x01 x02)
             (file (bs ++ ws ++ [xaa; xbb; xcc])) in
  r.1.1 = true ∧ istream.pending r.2 = [xaa; xbb; xcc]
  ∧ istream.good r.2 = true.
Proof.
  intros bs ws r.
  assert (E : Layer.ReadParameters
                (AffineTransform.previous_layer_ (Source 2)
                   (layer_1x2 5 x01 x02))
                (file (bs ++ ws ++ [xaa; xbb; xcc]))
              = (true, source 2, file (bs ++ ws ++ [xaa; xbb; xcc])))
    by reflexivity.
  apply (ReadParameters_trailing_bytes (Source 2) 1 (layer_1x2 5 x01 x02)
           (file (bs ++ ws ++ [xaa; xbb; xcc])) (source 2)
           (file (bs ++ ws ++ [xaa; xbb; xcc])) E eq_refl).
  cbn. lia.
Defined.

(** ** Propagation *)

(** The value stored in [output[0]] by a run on the fixture. *)
Local Abbreviation output_0 kernel self m :=
  (r ← AffineTransform.Propagate (Source 2) 1 kernel self 1000 0 m;
   load_int32 r.2 r.1).

(** Activations 255 against weights 127, zero padding throughout: the
    portable loop gives [5 + 2 * 127 * 255]; the x86 kernels saturate the
    pair sum at 32767; NEON reads 255 as -1. *)
Lemma Propagate_kernels_differ :
  let self := layer_1x2 5 x7f x7f in
  let m := memory_1x2 xff xff in
  AffineTransform.well_sized (Source 2) 1 self
  ∧ AffineTransform.zero_padding (Source 2) 1 self m 1000
  ∧ output_0 Portable self m = Some 64775
  ∧ output_0 AVX2 self m = Some 32772
  ∧ output_0 SSSE3 self m = Some 32772
  ∧ output_0 NEON self m = Some (- 249)
  ∧ AffineTransform.Propagate (Source 2) 1 AVX2 self 1000 0 m
    ≠ AffineTransform.Propagate (Source 2) 1 Portable self 1000 0 m
  ∧ AffineTransform.Propagate (Source 2) 1 SSSE3 self 1000 0 m
    ≠ AffineTransform.Propagate (Source 2) 1 Portable self 1000 0 m
  ∧ AffineTransform.Propagate (Source 2) 1 NEON self 1000 0 m
    ≠ AffineTransform.Propagate (Source 2) 1 Portable self 1000 0 m.
Proof.
  intros self m.
  split; [apply layer_1x2_well_sized|].
  split; [apply fixture_zero_padding|].
  assert (Hp : output_0 Portable self m = Some 64775) by (vm_compute; reflexivity).
  assert (Ha : output_0 AVX2 self m = Some 32772) by (vm_compute; reflexivity).
  assert (Hs : output_0 SSSE3 self m = Some 32772) by (vm_compute; reflexivity).
  assert (Hn : output_0 NEON self m = Some (- 249)) by (vm_compute; reflexivity).
  repeat split; try assumption; intros E.
  - rewrite E, Hp in Ha. discriminate.
  - rewrite E, Hp in Hs. discriminate.
  - rewrite E, Hp in Hn. discriminate.
Qed.

Lemma Propagate_kernels_agree_witness :
  let self := layer_1x2 5 x7f x80 in
  let m := memory_1x2 x7f x7f in
  AffineTransform.Propagate (Source 2) 1 AVX2 self 1000 0 m
    = AffineTransform.Propagate (Source 2) 1 Portable self 1000 0 m
  ∧ AffineTransform.Propagate (Source 2) 1 SSSE3 self 1000 0 m
    = AffineTransform.Propagate (Source 2) 1 Portable self 1000 0 m
  ∧ AffineTransform.Propagate (Source 2) 1 NEON self 1000 0 m
    = AffineTransform.Propagate (Source 2) 1 Portable self 1000 0 m
  ∧ is_Some (AffineTransform.Propagate (Source 2) 1 Portable self 1000 0 m).
Proof.
  intros self m.
  assert (E : Layer.Propagate (AffineTransform.previous_layer_ (Source 2) self)
                1000 (0 + Z.of_nat (AffineTransform.kSelfBufferSize 1)) m
              = Some (1000, m)) by reflexivity.
  pose proof (λ kernel,
    Propagate_kernels_agree (Source 2) 1 kernel self 1000 0 m 1000 m
      (layer_1x2_well_sized 5 x7f x80) E
      (memory_1x2_input_mapped x7f x7f) (memory_1x2_output_mapped x7f x7f)
      memory_1x2_input_apart (fixture_zero_padding 5 x7f x80 x7f x7f)
      fixture_activations_small) as Hagree.
  split; [exact (proj1 (Hagree AVX2))|].
  split; [exact (proj1 (Hagree SSSE3))|].
  split; [exact (proj1 (Hagree NEON))|].
  exact (proj2 (Hagree Portable)).
Defined.

(** Under I1, with activations 255 against weights 127, the prescribed
    output [bias + Σ] is [5 + 2 * 127 * 255 = 64775], over the padded and
    over the true length; the portable loop stores it, AVX2 and SSSE3
    store 32772 and NEON stores -249. *)
Lemma Propagate_affine_vector_kernels_differ :
  let self := layer_1x2 5 x7f x7f in
  let m := memory_1x2 xff xff in
  let x := AffineTransform.input_value m 1000 in
  AffineTransform.well_sized (Source 2) 1 self
  ∧ AffineTransform.zero_padding (Source 2) 1 self m 1000
  ∧ AffineTransform.input_mapped (Source 2) m 1000
  ∧ AffineTransform.output_mapped 1 m 0
  ∧ AffineTransform.input_apart (Source 2) 1 0 1000
  ∧ AffineTransform.affine_output (Source 2) self x 0
      (AffineTransform.kPaddedInputDimensions (Source 2)) = 64775
  ∧ AffineTransform.affine_output (Source 2) self x 0
      (AffineTransform.kInputDimensions (Source 2)) = 64775
  ∧ output_0 Portable self m = Some 64775
  ∧ output_0 AVX2 self m = Some 32772
  ∧ output_0 SSSE3 self m = Some 32772
  ∧ output_0 NEON self m = Some (- 249)
  ∧ output_0 AVX2 self m ≠ Some 64775
  ∧ output_0 SSSE3 self m ≠ Some 64775
  ∧ output_0 NEON self m ≠ Some 64775.
Proof.
  intros self m x.
  split; [apply layer_1x2_well_sized|].
  split; [apply fixture_zero_padding|].
  split; [apply memory_1x2_input_mapped|].
  split; [apply memory_1x2_output_mapped|].
  split; [apply memory_1x2_input_apart|].
  assert (Ha : output_0 AVX2 self m = Some 32772) by (vm_compute; reflexivity).
  assert (Hs : output_0 SSSE3 self m = Some 32772) by (vm_compute; reflexivity).
  assert (Hn : output_0 NEON self m = Some (- 249)) by (vm_compute; reflexivity).
  split; [vm_compute; reflexivity|]. split; [vm_compute; reflexivity|].
  split; [vm_compute; reflexivity|].
  split; [exact Ha|]. split; [exact Hs|]. split; [exact Hn|].
  rewrite Ha, Hs, Hn. repeat split; discriminate.
Qed.

(** [5 + 127 * 127 - 128 * 127 = -122], from the portable loop and from
    each vector kernel. *)
Lemma Propagate_affine_witness :
  let self := layer_1x2 5 x7f x80 in
  let m := memory_1x2 x7f x7f in
  (∃ m', AffineTransform.Propagate (Source 2) 1 Portable self 1000 0 m
         = Some (0, m')
         ∧ load_int32 m' 0 = Some (- 122))
  ∧ (∃ m', AffineTransform.Propagate (Source 2) 1 SSSE3 self 1000 0 m
           = Some (0, m')
           ∧ load_int32 m' 0 = Some (- 122))
  ∧ (∃ m', AffineTransform.Propagate (Source 2) 1 NEON self 1000 0 m
           = Some (0, m')
           ∧ load_int32 m' 0 = Some (- 122)).
Proof.
  intros self m.
  assert (E : Layer.Propagate (AffineTransform.previous_layer_ (Source 2) self)
                1000 (0 + Z.of_nat (AffineTransform.kSelfBufferSize 1)) m
              = Some (1000, m)) by reflexivity.
  assert (Hall : ∀ kernel,
            kernel = Portable ∨
            (∀ j, (j < AffineTransform.kInputDimensions (Source 2))%nat →
                  AffineTransform.input_value m 1000 j ≤ 127) →
            ∃ m', AffineTransform.Propagate (Source 2) 1 kernel self 1000 0 m
                  = Some (0, m')
                  ∧ load_int32 m' 0 = Some (- 122)).
  { intros kernel Hkernel.
    destruct (Propagate_affine (Source 2) 1 kernel self 1000 0 m 1000 m
                (layer_1x2_well_sized 5 x7f x80) E
                (memory_1x2_input_mapped x7f x7f)
                (memory_1x2_output_mapped x7f x7f)
                memory_1x2_input_apart
                (fixture_zero_padding 5 x7f x80 x7f x7f) Hkernel)
      as (m' & Ep & Hout).
    exists m'. split; [exact Ep|].
    destruct (Hout 0%nat ltac:(lia)) as (Hv & _).
    cbv zeta in Hv. change (0 + Z.of_nat (0 * 4)) with 0 in Hv.
    rewrite Hv. reflexivity. }
  split; [exact (Hall Portable (or_introl eq_refl))|].
  split; [exact (Hall SSSE3 (or_intror fixture_activations_small))
         |exact (Hall NEON (or_intror fixture_activations_small))].
Defined.

(** The 60 bytes of the buffer after [output[0]] keep the value they had,
    and so does the input vector. *)
Lemma Propagate_frame_witness :
  let self := layer_1x2 5 x7f x80 in
  let m := memory_1x2 x7f x7f in
  ∃ m', AffineTransform.Propagate (Source 2) 1 AVX2 self 1000 0 m
        = Some (0, m')
        ∧ m' !! 4 = Some xff ∧ m' !! 63 = Some xff ∧ m' !! 1000 = Some x7f
        ∧ 0 + Z.of_nat (1 * 4) ≤ 0 + Z.of_nat (AffineTransform.kSelfBufferSize 1).
Proof.
  intros self m.
  assert (E : Layer.Propagate (AffineTransform.previous_layer_ (Source 2) self)
                1000 (0 + Z.of_nat (AffineTransform.kSelfBufferSize 1)) m
              = Some (1000, m)) by reflexivity.
  destruct (Propagate_frame (Source 2) 1 AVX2 self 1000 0 m)
    as (Hframe & Hsize & Hreturns).
  destruct (Hreturns 1000 m E (layer_1x2_well_sized 5 x7f x80)
              (memory_1x2_input_mapped x7f x7f)
              (memory_1x2_output_mapped x7f x7f)) as [m' Ep].
  destruct (Hframe 0 m' Ep) as (input & m1 & E1 & _ & Hout & _).
  rewrite E in E1. injection E1 as <- <-.
  exists m'. split; [exact Ep|].
  rewrite !Hout by (cbn; lia).
  split; [reflexivity|]. split; [reflexivity|]. split; [reflexivity|].
  apply Hsize. cbn. lia.
Defined.

Lemma portable_accesses_in_bounds_witness :
  let self := layer_1x2 5 x7f x80 in
  let m := memory_1x2 x7f x7f in
  is_Some (AffineTransform.bias_at (Source 2) self 0)
  ∧ is_Some (AffineTransform.weight_at (Source 2) self 1)
  ∧ is_Some (AffineTransform.row_portable (Source 2) self
               (λ j, m !! (1000 + Z.of_nat j)) 0)
  ∧ is_Some (AffineTransform.Propagate (Source 2) 1 Portable self 1000 0 m).
Proof.
  intros self m.
  assert (E : Layer.Propagate (AffineTransform.previous_layer_ (Source 2) self)
                1000 (0 + Z.of_nat (AffineTransform.kSelfBufferSize 1)) m
              = Some (1000, m)) by reflexivity.
  destruct (portable_accesses_in_bounds (Source 2) 1 self 0
              (layer_1x2_well_sized 5 x7f x80) ltac:(lia))
    as (Hw & _ & Hb & Hrow & Hrun).
  split; [exact Hb|].
  split; [exact (proj1 (proj2 (proj2 (Hw 1%nat ltac:(cbn; lia)))))|].
  split; [exact (Hrow _ (memory_1x2_input_mapped x7f x7f))|].
  exact (Hrun 1000 0 m 1000 m E (memory_1x2_input_mapped x7f x7f)
           (memory_1x2_output_mapped x7f x7f)).
Defined.

(** * Further properties *)

(** ** Loading keeps the arrays in shape *)

Lemma length_store got dst :
  (length got ≤ length dst)%nat → length (istream.store got dst) = length dst.
Proof.
  intros Hl. unfold istream.store. rewrite length_app, length_drop. lia.
Qed.

Section MoreLoading.

Context (PreviousLayer : Type) `{!Layer.t PreviousLayer}.
Context (OutputDimensions : nat).

Local Abbreviation kPaddedInputDimensions :=
  (AffineTransform.kPaddedInputDimensions PreviousLayer).
Local Abbreviation kInputDimensions :=
  (AffineTransform.kInputDimensions PreviousLayer).
Local Abbreviation ReadParameters :=
  (AffineTransform.ReadParameters PreviousLayer OutputDimensions).
Local Abbreviation biases_ := (AffineTransform.biases_ PreviousLayer).
Local Abbreviation weights_ := (AffineTransform.weights_ PreviousLayer).
Local Abbreviation previous_layer_ :=
  (AffineTransform.previous_layer_ PreviousLayer).
Local Abbreviation well_sized :=
  (AffineTransform.well_sized PreviousLayer OutputDimensions).

Lemma well_sized_lengths self :
  well_sized self ↔
  length (biases_ self) = (OutputDimensions * 4)%nat ∧
  length (weights_ self) = (OutputDimensions * kPaddedInputDimensions)%nat.
Proof.
  unfold AffineTransform.well_sized, AffineTransform.kOutputDimensions,
    AffineTransform.BiasType, AffineTransform.WeightType,
    AffineTransform.OutputType. simpl sizeof. rewrite Nat.mul_1_r. reflexivity.
Qed.

(** X1. Whatever the stream holds, and whether the load succeeds or fails,
    [ReadParameters] leaves [biases_] and [weights_] at their declared
    sizes: no read stores past the end of an array. *)
Theorem ReadParameters_keeps_sizes self stream :
  well_sized self → well_sized (ReadParameters self stream).1.2.
Proof.
  intros Hsized. apply well_sized_lengths in Hsized as [Hlb Hlw].
  apply well_sized_lengths.
  destruct (Layer.ReadParameters (previous_layer_ self) stream)
    as [[ok previous_layer] stream1] eqn:E.
  destruct ok.
  - destruct (istream.good stream1) eqn:Hg.
    + destruct (ReadParameters_good _ OutputDimensions _ _ _ _ E Hg)
        as (_ & _ & -> & -> & _).
      rewrite !length_store by (rewrite length_take; lia). auto.
    + destruct (ReadParameters_not_good _ OutputDimensions _ _ _ _ E Hg)
        as (_ & -> & ->). auto.
  - rewrite (ReadParameters_upstream_failed _ OutputDimensions _ _ _ _ E). auto.
Qed.

(** A whole file of parameters: what is stored is what the stream held. *)
Lemma ReadParameters_stores self stream previous_layer stream1 bs ws rest :
  well_sized self →
  Layer.ReadParameters (previous_layer_ self) stream
    = (true, previous_layer, stream1) →
  istream.good stream1 = true →
  istream.pending stream1 = bs ++ ws ++ rest →
  length bs = (OutputDimensions * 4)%nat →
  length ws = (OutputDimensions * kPaddedInputDimensions)%nat →
  (ReadParameters self stream).1.1 = true ∧
  previous_layer_ (ReadParameters self stream).1.2 = previous_layer ∧
  biases_ (ReadParameters self stream).1.2 = bs ∧
  weights_ (ReadParameters self stream).1.2 = ws.
Proof.
  intros Hsized E Hg Hp Hbs Hws.
  apply well_sized_lengths in Hsized as [Hlb Hlw].
  destruct (ReadParameters_good _ OutputDimensions _ _ _ _ E Hg)
    as (Hiff & _ & Hb & Hw & _).
  rewrite Hb, Hw, Hp.
  assert (take (OutputDimensions * 4) (bs ++ ws ++ rest) = bs) as ->
    by (rewrite <- Hbs; apply take_app_length).
  assert (drop (OutputDimensions * 4) (bs ++ ws ++ rest) = ws ++ rest) as ->
    by (rewrite <- Hbs; apply drop_app_length).
  assert (take (OutputDimensions * kPaddedInputDimensions) (ws ++ rest) = ws)
    as -> by (rewrite <- Hws; apply take_app_length).
  rewrite !store_all by lia.
  split; [|split; [|auto]].
  - apply Hiff. rewrite Hp, !length_app. lia.
  - rewrite (ReadParameters_own_sections _ OutputDimensions _ _ _ _ E).
    reflexivity.
Qed.

End MoreLoading.

(** ** The portable loop and the padding *)

Section Unpadded.

Context (PreviousLayer : Type) `{!Layer.t PreviousLayer}.
Context (OutputDimensions : nat).

Local Abbreviation kInputDimensions :=
  (AffineTransform.kInputDimensions PreviousLayer).
Local Abbreviation kPaddedInputDimensions :=
  (AffineTransform.kPaddedInputDimensions PreviousLayer).

(** The portable loop reads the first [kInputDimensions] activations and
    nothing else of the input vector. *)
Lemma row_portable_unpadded self (input : nat → option byte) i :
  AffineTransform.well_sized PreviousLayer OutputDimensions self →
  (i < OutputDimensions)%nat →
  (∀ j, (j < kInputDimensions)%nat → is_Some (input j)) →
  AffineTransform.row_portable PreviousLayer self input i
  = Some (wrap32 (AffineTransform.affine_output PreviousLayer self
                    (λ j, u8 (default x00 (input j))) i kInputDimensions)).
Proof.
  intros Hsized Hi Hinput.
  unfold AffineTransform.row_portable, AffineTransform.affine_output.
  rewrite (bias_at_Some _ OutputDimensions) by assumption.
  cbn [mbind option_bind].
  pose proof (kPaddedInputDimensions_spec PreviousLayer) as [_ [HIP _]].
  revert Hinput HIP. generalize kInputDimensions. intros n.
  induction n as [|n IH]; intros Hinput Hn.
  - cbn [for_loop weighted_sum]. rewrite Z.add_0_r, wrap32_id; [reflexivity|].
    apply (bias_value_range _ OutputDimensions); assumption.
  - cbn [for_loop]. rewrite IH by (try lia; intros; apply Hinput; lia).
    cbn [mbind option_bind].
    rewrite (weight_at_Some _ OutputDimensions) by (try assumption; lia).
    cbn [mbind option_bind].
    assert (Hd : input n = Some (default x00 (input n)))
      by (destruct (Hinput n ltac:(lia)) as [y ->]; reflexivity).
    rewrite Hd. cbn [mbind option_bind].
    rewrite wrap32_add_l. cbn [weighted_sum].
    unfold AffineTransform.weight_value. do 2 f_equal. lia.
Qed.

End Unpadded.

(** ** More on loops and loads *)

Lemma load_bytes_None (at_ : nat → option byte) start count k :
  (start ≤ k < start + count)%nat → at_ k = None →
  load_bytes at_ start count = None.
Proof.
  intros Hk Hnone. unfold load_bytes. apply mapM_None.
  apply Exists_exists. exists k. split; [|exact Hnone].
  apply list_elem_of_In, in_seq. lia.
Qed.

(** A loop one of whose iterations cannot return does not return. *)
Lemma for_loop_None {St : Type} n (body : nat → St → option St) s k :
  (k < n)%nat → (∀ t, body k t = None) → for_loop n body s = None.
Proof.
  intros Hk Hnone. induction n as [|n IH]; [lia|].
  cbn [for_loop]. destruct (decide (k = n)) as [->|Hne].
  - destruct (for_loop n body s); [apply Hnone | reflexivity].
  - rewrite IH by lia. reflexivity.
Qed.

(** Two loops whose bodies agree on the states the first one reaches. *)
Lemma for_loop_agree {St : Type} (Inv : St → Prop) n
    (body body' : nat → St → option St) s :
  Inv s →
  (∀ i t t', (i < n)%nat → Inv t → body i t = Some t' → Inv t') →
  (∀ i t, (i < n)%nat → Inv t → body i t = body' i t) →
  for_loop n body s = for_loop n body' s.
Proof.
  intros H0 Hkeep Hsame.
  cut (for_loop n body s = for_loop n body' s ∧
       ∀ t, for_loop n body s = Some t → Inv t); [intros [E _]; exact E|].
  induction n as [|n IH].
  - split; [reflexivity|]. intros t [= <-]. exact H0.
  - destruct IH as [E Hinv].
    { intros j t t' Hj. apply Hkeep. lia. }
    { intros j t Hj. apply Hsame. lia. }
    cbn [for_loop]. rewrite <- E.
    destruct (for_loop n body s) as [t|]; [|split; [reflexivity|discriminate]].
    cbn [mbind option_bind]. split.
    + apply Hsame; auto.
    + intros t' Ht'. apply (Hkeep n t t'); auto.
Qed.

Lemma pair_sum_chunk narrow (term : nat → Z) count : ∀ start,
  pair_sum narrow term start
  + lsum (hadd_pairs narrow (term <$> seq (2 * start) (2 * count)))
  = pair_sum narrow term (start + count).
Proof.
  induction count as [|count IH]; intros start.
  - cbn. rewrite Nat.add_0_r. lia.
  - replace (2 * S count)%nat with (S (S (2 * count))) by lia.
    unfold hadd_pairs in *. cbn [seq fmap list_fmap pairs lsum].
    replace (S (S (2 * start))) with (2 * S start)%nat by lia.
    replace (start + S count)%nat with (S start + count)%nat by lia.
    rewrite <- (IH (S start)). cbn [pair_sum].
    replace (2 * start + 1)%nat with (S (2 * start)) by lia. lia.
Qed.

(** [pmaddubsw], [pmaddwd] by ones, [paddd], on arbitrary bytes: the lanes
    of [sum] grow by the saturated sums of adjacent products. *)
Lemma x86_chunk_saturating (lanes : nat) (xb wb : nat → byte) o start sum :
  length sum = lanes →
  let a := xb <$> seq start (4 * lanes) in
  let b := wb <$> seq (o + start) (4 * lanes) in
  let product := maddubs_epi16 a b in
  let product := madd_epi16 product (replicate (2 * lanes) 1) in
  length (add_epi32 sum product) = lanes ∧
  wrap32 (lsum (add_epi32 sum product))
  = wrap32 (lsum sum
            + lsum (hadd_pairs sat16
                      ((λ j, u8 (xb j) * s8 (wb (o + j)%nat))
                         <$> seq start (4 * lanes)))).
Proof.
  intros Hsum a b. subst a b. cbv zeta.
  unfold maddubs_epi16, madd_epi16.
  rewrite zip_with_fmap_seq.
  set (products := (λ j, u8 (xb j) * s8 (wb (o + j)%nat)) <$> seq start (4 * lanes)).
  assert (Hlen : length products = (2 * (2 * lanes))%nat).
  { unfold products. rewrite length_fmap, length_seq. lia. }
  pose proof (length_hadd_pairs sat16 _ _ Hlen) as Hl1.
  rewrite zip_with_mul_ones by exact Hl1.
  pose proof (length_hadd_pairs wrap32 _ _ Hl1) as Hl2.
  split.
  - rewrite length_add_epi32; lia.
  - rewrite wrap32_lsum_add_epi32 by lia.
    rewrite <- wrap32_add_r, (wrap32_lsum_hadd_pairs _ _ Hl1), wrap32_add_r.
    reflexivity.
Qed.

Section Saturating.

Context (PreviousLayer : Type) `{!Layer.t PreviousLayer}.
Context (OutputDimensions : nat).
Context (self : AffineTransform.t PreviousLayer).
Context (input : nat → option byte) (i : nat).

Local Abbreviation kPaddedInputDimensions :=
  (AffineTransform.kPaddedInputDimensions PreviousLayer).
Local Abbreviation weight_at := (AffineTransform.weight_at PreviousLayer self).
Local Abbreviation bias_value := (AffineTransform.bias_value PreviousLayer self).
Local Abbreviation weight_value :=
  (AffineTransform.weight_value PreviousLayer self).

Hypothesis Hsized : AffineTransform.well_sized PreviousLayer OutputDimensions self.
Hypothesis Hinput : ∀ j, (j < kPaddedInputDimensions)%nat → is_Some (input j).
Hypothesis Hi : (i < OutputDimensions)%nat.

(** The product of activation [j] and its weight in row [i]. *)
Local Abbreviation term :=
  (λ j, u8 (default x00 (input j)) * weight_value i j).

Lemma x86_loop_saturating (lanes : nat) (bias_lanes : list Z) body n :
  length bias_lanes = lanes → lsum bias_lanes = bias_value i →
  (n * (4 * lanes) ≤ kPaddedInputDimensions)%nat →
  (∀ j sum, body j sum =
     a ← load_bytes input (j * (4 * lanes)) (4 * lanes);
     b ← load_bytes weight_at (i * kPaddedInputDimensions + j * (4 * lanes))
           (4 * lanes);
     Some (add_epi32 sum
             (madd_epi16 (maddubs_epi16 a b) (replicate (2 * lanes) 1)))) →
  ∃ sum, for_loop n body bias_lanes = Some sum ∧ length sum = lanes ∧
    wrap32 (lsum sum)
    = wrap32 (bias_value i + pair_sum sat16 term (n * (2 * lanes))).
Proof using Hsized Hinput Hi.
  intros Hl Hb Hn Hbody.
  apply (for_loop_invariant (λ n sum, length sum = lanes ∧
           wrap32 (lsum sum)
           = wrap32 (bias_value i + pair_sum sat16 term (n * (2 * lanes))))).
  - split; [exact Hl|]. rewrite Hb. cbn [Nat.mul pair_sum]. f_equal. lia.
  - intros j sum Hj [Hlen Hsum].
    assert (j * (4 * lanes) + 4 * lanes ≤ kPaddedInputDimensions)%nat by nia.
    rewrite Hbody, (load_input _ input Hinput) by lia.
    cbn [mbind option_bind].
    rewrite (load_weights _ OutputDimensions self i Hsized Hi) by lia.
    cbn [mbind option_bind].
    eexists. split; [reflexivity|].
    destruct (x86_chunk_saturating lanes (λ j, default x00 (input j))
                (λ k, default x00 (weight_at k))
                (i * kPaddedInputDimensions) (j * (4 * lanes)) sum Hlen)
      as [Hl' Hs'].
    split; [exact Hl'|]. rewrite Hs'.
    rewrite <- wrap32_add_l, Hsum, wrap32_add_l. f_equal.
    replace (S j * (2 * lanes))%nat with (j * (2 * lanes) + 2 * lanes)%nat by lia.
    rewrite <- (pair_sum_chunk sat16 term (2 * lanes) (j * (2 * lanes))).
    replace (2 * (j * (2 * lanes)))%nat with (j * (4 * lanes))%nat by lia.
    replace (2 * (2 * lanes))%nat with (4 * lanes)%nat by lia.
    rewrite <- Z.add_assoc. reflexivity.
Qed.

Lemma padded_pairs :
  (kPaddedInputDimensions / 32 * 16 = kPaddedInputDimensions / 2 ∧
   kPaddedInputDimensions / 16 * 8 = kPaddedInputDimensions / 2)%nat.
Proof using Type.
  clear Hsized Hinput Hi.
  pose proof (kPaddedInputDimensions_chunks PreviousLayer AVX2) as H32.
  pose proof (kPaddedInputDimensions_chunks PreviousLayer SSSE3) as H16.
  cbn [kSimdWidth] in H32, H16.
  set (q32 := (kPaddedInputDimensions / 32)%nat) in *.
  set (q16 := (kPaddedInputDimensions / 16)%nat) in *.
  split.
  - rewrite <- H32. replace (q32 * 32)%nat with (q32 * 16 * 2)%nat by lia.
    rewrite Nat.div_mul by lia. reflexivity.
  - rewrite <- H16. replace (q16 * 16)%nat with (q16 * 8 * 2)%nat by lia.
    rewrite Nat.div_mul by lia. reflexivity.
Qed.

Lemma row_avx2_saturating :
  AffineTransform.row_avx2 PreviousLayer self input i
  = Some (wrap32 (bias_value i
                  + pair_sum sat16 term (kPaddedInputDimensions / 2))).
Proof using Hsized Hinput Hi.
  unfold AffineTransform.row_avx2.
  rewrite (bias_at_Some _ OutputDimensions) by assumption.
  cbn [mbind option_bind].
  pose proof (kPaddedInputDimensions_chunks PreviousLayer AVX2) as Hc.
  cbn [kSimdWidth] in Hc |- *.
  edestruct (x86_loop_saturating 8
               (_mm256_set_epi32 0 0 0 0 0 0 0 (bias_value i)))
    as (sum & E & Hlen & Hsum);
    [reflexivity | cbn [_mm256_set_epi32 lsum]; lia | | | ].
  3: { rewrite E. cbn [mbind option_bind].
       change (2 * 8)%nat with 16%nat in Hsum.
       rewrite (proj1 padded_pairs) in Hsum. f_equal. rewrite <- Hsum.
       destruct sum as [|s0 [|s1 [|s2 [|s3 [|s4 [|s5 [|s6 [|s7 [|]]]]]]]]];
         try discriminate.
       unfold _mm256_hadd_epi32, _mm_hadd_epi32, hadd_pairs,
         _mm256_extracti128_si256, _mm_cvtsi128_si32, lane.
       cbn [take drop pairs fmap list_fmap app lookup list_lookup default lsum].
       unfold id.
       rewrite (wrap32_add (s0 + s1)), (wrap32_add (s4 + s5)), wrap32_add.
       f_equal. lia. }
  - change (4 * 8)%nat with 32%nat. lia.
  - intros j sum. reflexivity.
Qed.

Lemma row_ssse3_saturating :
  AffineTransform.row_ssse3 PreviousLayer self input i
  = Some (wrap32 (bias_value i
                  + pair_sum sat16 term (kPaddedInputDimensions / 2))).
Proof using Hsized Hinput Hi.
  unfold AffineTransform.row_ssse3.
  rewrite (bias_at_Some _ OutputDimensions) by assumption.
  cbn [mbind option_bind].
  pose proof (kPaddedInputDimensions_chunks PreviousLayer SSSE3) as Hc.
  cbn [kSimdWidth] in Hc |- *.
  edestruct (x86_loop_saturating 4 (_mm_cvtsi32_si128 (bias_value i)))
    as (sum & E & Hlen & Hsum);
    [reflexivity | cbn [_mm_cvtsi32_si128 lsum]; lia | | | ].
  3: { rewrite E. cbn [mbind option_bind].
       change (2 * 4)%nat with 8%nat in Hsum.
       rewrite (proj2 padded_pairs) in Hsum. f_equal. rewrite <- Hsum.
       destruct sum as [|s0 [|s1 [|s2 [|s3 [|]]]]]; try discriminate.
       unfold _mm_hadd_epi32, hadd_pairs, _mm_cvtsi128_si32, lane.
       cbn [pairs fmap list_fmap app lookup list_lookup default lsum].
       unfold id. rewrite wrap32_add. f_equal. lia. }
  - change (4 * 4)%nat with 16%nat. lia.
  - intros j sum. reflexivity.
Qed.

End Saturating.

(** ** Propagation on arbitrary bytes *)

Section MorePropagation.

Context `{NnueCommon}.
Context (PreviousLayer : Type) `{!Layer.t PreviousLayer}.
Context (OutputDimensions : nat).

Local Abbreviation kInputDimensions :=
  (AffineTransform.kInputDimensions PreviousLayer).
Local Abbreviation kPaddedInputDimensions :=
  (AffineTransform.kPaddedInputDimensions PreviousLayer).
Local Abbreviation kSelfBufferSize :=
  (AffineTransform.kSelfBufferSize OutputDimensions).
Local Abbreviation previous_layer_ :=
  (AffineTransform.previous_layer_ PreviousLayer).
Local Abbreviation well_sized :=
  (AffineTransform.well_sized PreviousLayer OutputDimensions).
Local Abbreviation input_mapped := (AffineTransform.input_mapped PreviousLayer).
Local Abbreviation output_mapped := (AffineTransform.output_mapped OutputDimensions).
Local Abbreviation input_apart :=
  (AffineTransform.input_apart PreviousLayer OutputDimensions).
Local Abbreviation input_value := AffineTransform.input_value.
Local Abbreviation weight_value := (AffineTransform.weight_value PreviousLayer).
Local Abbreviation bias_value := (AffineTransform.bias_value PreviousLayer).
Local Abbreviation affine_output := (AffineTransform.affine_output PreviousLayer).
Local Abbreviation row := (AffineTransform.row PreviousLayer).
Local Abbreviation Propagate :=
  (AffineTransform.Propagate PreviousLayer OutputDimensions).

(** X2. The portable loop needs no padding. With only the first
    [kInputDimensions] bytes of the input vector mapped and lying outside
    the output bytes, whatever the padding columns of the weights hold,
    the portable [Propagate] returns [buffer] and [output[i]] is
    [bias[i]] plus the sum over [j] below [kInputDimensions] of
    [weight[i][j] * input[j]], as a 32-bit signed value. *)
Theorem Propagate_portable_unpadded self transformed_features buffer m
    input m1 :
  well_sized self →
  Layer.Propagate (previous_layer_ self) transformed_features
    (buffer + Z.of_nat kSelfBufferSize) m = Some (input, m1) →
  (∀ j, (j < kInputDimensions)%nat → is_Some (m1 !! (input + Z.of_nat j))) →
  output_mapped m1 buffer →
  (∀ j, (j < kInputDimensions)%nat →
        ¬ (buffer ≤ input + Z.of_nat j
           < buffer + Z.of_nat (OutputDimensions * 4))) →
  ∃ m',
    Propagate Portable self transformed_features buffer m = Some (buffer, m') ∧
    ∀ i, (i < OutputDimensions)%nat →
      load_int32 m' (buffer + Z.of_nat (i * 4))
      = Some (wrap32 (affine_output self (input_value m1 input) i
                        kInputDimensions)).
Proof.
  intros Hsized E Hin Hout Hapart.
  rewrite (Propagate_eq _ _ _ _ _ _ _ _ _ E).
  destruct (output_loop_values buffer m1
              (λ i m, row Portable self (λ j, m !! (input + Z.of_nat j)) i)
              (λ i, wrap32 (affine_output self (input_value m1 input) i
                              kInputDimensions))
              OutputDimensions) as (m' & Eloop & _ & Hval).
  - exact Hout.
  - intros i m0 Hi Hagree. cbn [AffineTransform.row].
    assert (Hsame : ∀ j, (j < kInputDimensions)%nat →
              m0 !! (input + Z.of_nat j) = m1 !! (input + Z.of_nat j))
      by (intros j Hj; apply Hagree, Hapart, Hj).
    rewrite (row_portable_unpadded _ OutputDimensions)
      by (try assumption; intros j Hj; rewrite Hsame by exact Hj; apply Hin, Hj).
    do 2 f_equal. unfold AffineTransform.affine_output. f_equal.
    apply weighted_sum_ext. intros j Hj.
    unfold AffineTransform.input_value. rewrite Hsame by exact Hj. reflexivity.
  - exists m'. rewrite Eloop. split; [reflexivity|].
    intros i Hi. rewrite (Hval i Hi), wrap32_idemp. reflexivity.
Qed.

(** X3. The vector kernels sum over the whole padded length. With every
    one of the [kPaddedInputDimensions] activations in 0..127, and no
    assumption that the padding is zero, each of AVX2, SSSE3 and NEON
    stores in [output[i]] the value of [bias[i]] plus the sum over [j]
    below [kPaddedInputDimensions] of [weight[i][j] * input[j]], as a
    32-bit signed value. *)
Theorem Propagate_vector_padded kernel self transformed_features buffer m
    input m1 :
  kernel ≠ Portable →
  well_sized self →
  Layer.Propagate (previous_layer_ self) transformed_features
    (buffer + Z.of_nat kSelfBufferSize) m = Some (input, m1) →
  input_mapped m1 input → output_mapped m1 buffer → input_apart buffer input →
  (∀ j, (j < kPaddedInputDimensions)%nat → input_value m1 input j ≤ 127) →
  ∃ m',
    Propagate kernel self transformed_features buffer m = Some (buffer, m') ∧
    ∀ i, (i < OutputDimensions)%nat →
      load_int32 m' (buffer + Z.of_nat (i * 4))
      = Some (wrap32 (affine_output self (input_value m1 input) i
                        kPaddedInputDimensions)).
Proof.
  intros Hk Hsized E Hin Hout Hapart Hsmall.
  rewrite (Propagate_eq _ _ _ _ _ _ _ _ _ E).
  destruct (output_loop_values buffer m1
              (λ i m, row kernel self (λ j, m !! (input + Z.of_nat j)) i)
              (λ i, wrap32 (affine_output self (input_value m1 input) i
                              kPaddedInputDimensions))
              OutputDimensions) as (m' & Eloop & _ & Hval).
  - exact Hout.
  - intros i m0 Hi Hagree.
    assert (Hm : ∀ j, (j < kPaddedInputDimensions)%nat →
                      is_Some (m0 !! (input + Z.of_nat j)))
      by (apply (reads_mapped _ OutputDimensions buffer input m1); assumption).
    assert (Hs : ∀ j, (j < kPaddedInputDimensions)%nat →
                      u8 (default x00 (m0 !! (input + Z.of_nat j))) ≤ 127).
    { intros j Hj.
      rewrite (reads_agree _ OutputDimensions buffer input m1 m0 Hapart Hagree)
        by exact Hj.
      apply Hsmall, Hj. }
    assert (Ha := affine_output_agree _ OutputDimensions self buffer input m1
                    m0 i Hapart Hagree kPaddedInputDimensions (le_n _)).
    destruct kernel; [| | |contradiction]; cbn [AffineTransform.row].
    + rewrite (row_avx2_closed _ OutputDimensions) by assumption.
      rewrite Ha. reflexivity.
    + rewrite (row_ssse3_closed _ OutputDimensions) by assumption.
      rewrite Ha. reflexivity.
    + rewrite (row_neon_closed _ OutputDimensions) by assumption.
      rewrite Ha. reflexivity.
  - exists m'. rewrite Eloop. split; [reflexivity|].
    intros i Hi. rewrite (Hval i Hi), wrap32_idemp. reflexivity.
Qed.

(** X4. What the two x86 kernels compute on arbitrary bytes: the value of
    row [i] is [bias[i]] plus, over the [kPaddedInputDimensions / 2]
    adjacent pairs of columns, the sum of the two products
    [input[j] * weight[i][j]] saturated to 16 bits, as a 32-bit signed
    value. *)
Theorem x86_rows_saturate kernel self (input : nat → option byte) i :
  kernel = AVX2 ∨ kernel = SSSE3 →
  well_sized self → (i < OutputDimensions)%nat →
  (∀ j, (j < kPaddedInputDimensions)%nat → is_Some (input j)) →
  row kernel self input i
  = Some (wrap32 (bias_value self i
                  + pair_sum sat16
                      (λ j, u8 (default x00 (input j)) * weight_value self i j)
                      (kPaddedInputDimensions / 2))).
Proof.
  intros [->| ->] Hsized Hi Hinput; cbn [AffineTransform.row].
  - apply (row_avx2_saturating _ OutputDimensions); assumption.
  - apply (row_ssse3_saturating _ OutputDimensions); assumption.
Qed.

(** X5. AVX2 and SSSE3 agree on every input: whatever the activations
    and the weights, saturation included, the two kernels return the same
    pointer and leave the same memory. *)
Theorem Propagate_avx2_ssse3 self transformed_features buffer m input m1 :
  well_sized self →
  Layer.Propagate (previous_layer_ self) transformed_features
    (buffer + Z.of_nat kSelfBufferSize) m = Some (input, m1) →
  input_mapped m1 input →
  Propagate AVX2 self transformed_features buffer m
  = Propagate SSSE3 self transformed_features buffer m.
Proof.
  intros Hsized E Hin.
  rewrite !(Propagate_eq _ _ _ _ _ _ _ _ _ E). f_equal.
  apply (for_loop_agree (λ m0, ∀ a, is_Some (m0 !! a) ↔ is_Some (m1 !! a))).
  - reflexivity.
  - intros i t t' Hi Hmap Hbody. cbv beta in Hbody.
    destruct (row AVX2 self _ i) as [sum|]; [|discriminate].
    cbn [mbind option_bind] in Hbody. unfold store_int32 in Hbody.
    intros a. rewrite (store_bytes_mapped _ _ _ _ Hbody). apply Hmap.
  - intros i t Hi Hmap. cbv beta. cbn [AffineTransform.row].
    assert (Hinput : ∀ j, (j < kPaddedInputDimensions)%nat →
                          is_Some (t !! (input + Z.of_nat j)))
      by (intros j Hj; apply Hmap, Hin, Hj).
    rewrite (row_avx2_saturating _ OutputDimensions) by assumption.
    rewrite (row_ssse3_saturating _ OutputDimensions) by assumption.
    reflexivity.
Qed.

(** X6. The vector kernels read every byte of the padded input vector:
    if any of the [kPaddedInputDimensions] bytes cannot be read, the row
    computation of AVX2, SSSE3 and NEON does not return. *)
Theorem vector_rows_read_padding kernel self (input : nat → option byte) i j :
  kernel ≠ Portable →
  (j < kPaddedInputDimensions)%nat → input j = None →
  row kernel self input i = None.
Proof.
  intros Hk Hj Hnone.
  destruct kernel; [| | |contradiction]; cbn [AffineTransform.row].
  - unfold AffineTransform.row_avx2.
    destruct (AffineTransform.bias_at PreviousLayer self i); [|reflexivity].
    cbn [mbind option_bind].
    pose proof (kPaddedInputDimensions_chunks PreviousLayer AVX2) as Hc.
    cbn [kSimdWidth] in Hc |- *.
    rewrite (for_loop_None _ _ _ (j / 32)); [reflexivity| |].
    + apply Nat.Div0.div_lt_upper_bound. lia.
    + intros t. unfold _mm256_load_si256.
      rewrite (load_bytes_None input _ _ j); [reflexivity| |exact Hnone].
      pose proof (Nat.div_mod_eq j 32).
      pose proof (Nat.mod_upper_bound j 32). lia.
  - unfold AffineTransform.row_ssse3.
    destruct (AffineTransform.bias_at PreviousLayer self i); [|reflexivity].
    cbn [mbind option_bind].
    pose proof (kPaddedInputDimensions_chunks PreviousLayer SSSE3) as Hc.
    cbn [kSimdWidth] in Hc |- *.
    rewrite (for_loop_None _ _ _ (j / 16)); [reflexivity| |].
    + apply Nat.Div0.div_lt_upper_bound. lia.
    + intros t. unfold _mm_load_si128.
      rewrite (load_bytes_None input _ _ j); [reflexivity| |exact Hnone].
      pose proof (Nat.div_mod_eq j 16).
      pose proof (Nat.mod_upper_bound j 16). lia.
  - unfold AffineTransform.row_neon.
    destruct (AffineTransform.bias_at PreviousLayer self i); [|reflexivity].
    cbn [mbind option_bind].
    pose proof (kPaddedInputDimensions_chunks PreviousLayer NEON) as Hc.
    cbn [kSimdWidth] in Hc |- *.
    rewrite (for_loop_None _ _ _ (j / 16)); [reflexivity| |].
    + apply Nat.Div0.div_lt_upper_bound. lia.
    + intros t. unfold load_int8x8_t.
      pose proof (Nat.div_mod_eq j 16) as Hdm.
      pose proof (Nat.mod_upper_bound j 16 ltac:(lia)) as Hmod.
      destruct (decide (j `mod` 16 < 8)%nat) as [Hlow|Hhigh].
      * rewrite (load_bytes_None input (j / 16 * 2 * 8) 8 j);
          [reflexivity| |exact Hnone]. lia.
      * destruct (load_bytes input (j / 16 * 2 * 8) 8); [|reflexivity].
        cbn [mbind option_bind].
        destruct (load_bytes (AffineTransform.weight_at PreviousLayer self)
                    (i * kPaddedInputDimensions + j / 16 * 2 * 8) 8);
          [|reflexivity].
        cbn [mbind option_bind].
        rewrite (load_bytes_None input ((j / 16 * 2 + 1) * 8) 8 j);
          [reflexivity| |exact Hnone]. lia.
Qed.

End MorePropagation.

(** ** Layers in a chain *)

Section Chain.

Context `{NnueCommon}.
Context (PreviousLayer : Type) `{!Layer.t PreviousLayer}.
Context (OutputDimensions : nat).

Local Abbreviation kInputDimensions :=
  (AffineTransform.kInputDimensions PreviousLayer).
Local Abbreviation kPaddedInputDimensions :=
  (AffineTransform.kPaddedInputDimensions PreviousLayer).
Local Abbreviation kSelfBufferSize :=
  (AffineTransform.kSelfBufferSize OutputDimensions).
Local Abbreviation kBufferSize :=
  (AffineTransform.kBufferSize PreviousLayer OutputDimensions).
Local Abbreviation previous_layer_ :=
  (AffineTransform.previous_layer_ PreviousLayer).
Local Abbreviation well_sized :=
  (AffineTransform.well_sized PreviousLayer OutputDimensions).
Local Abbreviation output_mapped := (AffineTransform.output_mapped OutputDimensions).
Local Abbreviation input_value := AffineTransform.input_value.
Local Abbreviation bias_value := (AffineTransform.bias_value PreviousLayer).
Local Abbreviation affine_output := (AffineTransform.affine_output PreviousLayer).
Local Abbreviation row := (AffineTransform.row PreviousLayer).
Local Abbreviation Propagate :=
  (AffineTransform.Propagate PreviousLayer OutputDimensions).
Local Abbreviation ReadParameters :=
  (AffineTransform.ReadParameters PreviousLayer OutputDimensions).

(** X7. The buffer suffices along a chain. If the previous layer's
    [Propagate] changes no byte outside the [kBufferSize] bytes of the
    buffer it is given, then this layer's [Propagate], with any kernel,
    changes no byte outside the [kBufferSize] bytes at [buffer]: the layer
    offers the layer above the guarantee it requires below. *)
Theorem Propagate_within_buffer kernel :
  (0 < kCacheLineSize)%nat →
  writes_within_buffer PreviousLayer →
  @writes_within_buffer (AffineTransform.t PreviousLayer)
    (AffineTransform.layer PreviousLayer OutputDimensions kernel).
Proof.
  intros Hc Hprev self transformed_features buffer m output m' Ep a Ha.
  cbn [Layer.Propagate Layer.kBufferSize AffineTransform.layer] in Ep, Ha.
  unfold AffineTransform.kBufferSize in Ha.
  pose proof (kSelfBufferSize_spec OutputDimensions Hc) as [_ Hself].
  destruct (Layer.Propagate (previous_layer_ self) transformed_features
              (buffer + Z.of_nat kSelfBufferSize) m) as [[input m1]|] eqn:E.
  2: { rewrite (Propagate_None _ _ _ _ _ _ _ E) in Ep. discriminate. }
  rewrite (Propagate_eq _ _ _ _ _ _ _ _ _ E) in Ep.
  destruct (for_loop _ _ m1) as [mn|] eqn:Eloop; [|discriminate].
  cbn [mbind option_bind] in Ep. injection Ep as <- <-.
  apply output_loop_frame in Eloop as [Hframe _].
  rewrite Hframe by lia.
  apply (Hprev _ _ _ _ _ _ E). lia.
Qed.

(** X8. Alignment along a chain. If the previous layer's [kBufferSize]
    is a multiple of the cache line size, so is this layer's, and the
    offset [kSelfBufferSize] at which the previous layer's part of the
    buffer starts is one too. *)
Theorem kBufferSize_aligned :
  (0 < kCacheLineSize)%nat →
  (Layer.kBufferSize (L := PreviousLayer) `mod` kCacheLineSize = 0)%nat →
  (kSelfBufferSize `mod` kCacheLineSize = 0)%nat ∧
  (kBufferSize `mod` kCacheLineSize = 0)%nat ∧
  (Layer.kBufferSize (L := PreviousLayer) ≤ kBufferSize)%nat.
Proof.
  intros Hc Hprev.
  pose proof (kSelfBufferSize_spec OutputDimensions Hc) as [Hself _].
  split; [exact Hself|]. unfold AffineTransform.kBufferSize.
  split; [|lia].
  rewrite <- Nat.Div0.add_mod_idemp_l, Hprev, Nat.add_0_l. exact Hself.
Qed.

(** X9. The parameters loaded are the parameters used. After a load from
    a stream that, past the previous layer's part, holds the bias bytes
    [bs] followed by the weight bytes [ws], the portable [Propagate] of
    the loaded layer stores in [output[i]] the 32-bit value of the four
    bytes at [4 * i] of [bs] plus the sum over [j] below
    [kInputDimensions] of the signed byte at [i * kPaddedInputDimensions +
    j] of [ws] times [input[j]]. *)
Theorem load_then_propagate self stream previous_layer stream1 bs ws rest
    transformed_features buffer m input m1 :
  well_sized self →
  Layer.ReadParameters (previous_layer_ self) stream
    = (true, previous_layer, stream1) →
  istream.good stream1 = true →
  istream.pending stream1 = bs ++ ws ++ rest →
  length bs = (OutputDimensions * 4)%nat →
  length ws = (OutputDimensions * kPaddedInputDimensions)%nat →
  Layer.Propagate previous_layer transformed_features
    (buffer + Z.of_nat kSelfBufferSize) m = Some (input, m1) →
  (∀ j, (j < kInputDimensions)%nat → is_Some (m1 !! (input + Z.of_nat j))) →
  output_mapped m1 buffer →
  (∀ j, (j < kInputDimensions)%nat →
        ¬ (buffer ≤ input + Z.of_nat j
           < buffer + Z.of_nat (OutputDimensions * 4))) →
  (ReadParameters self stream).1.1 = true ∧
  ∃ m',
    Propagate Portable (ReadParameters self stream).1.2
      transformed_features buffer m = Some (buffer, m') ∧
    ∀ i, (i < OutputDimensions)%nat →
      load_int32 m' (buffer + Z.of_nat (i * 4))
      = Some (wrap32
                (int32_of_bytes (take 4 (drop (4 * i) bs))
                 + weighted_sum
                     (λ j, s8 (default x00
                                 (ws !! (i * kPaddedInputDimensions + j)%nat)))
                     (input_value m1 input) kInputDimensions)).
Proof.
  intros Hsized E Hg Hp Hbs Hws Eprev Hin Hout Hapart.
  destruct (ReadParameters_stores _ OutputDimensions self stream _ _ bs ws rest
              Hsized E Hg Hp Hbs Hws) as (Hok & Hprev & Hb & Hw).
  split; [exact Hok|].
  set (self' := (ReadParameters self stream).1.2) in *.
  assert (Hsized' : well_sized self')
    by (apply well_sized_lengths; rewrite Hb, Hw; auto).
  rewrite <- Hprev in Eprev.
  rewrite (Propagate_eq _ _ _ _ _ _ _ _ _ Eprev).
  destruct (output_loop_values buffer m1
              (λ i m, row Portable self' (λ j, m !! (input + Z.of_nat j)) i)
              (λ i, wrap32 (affine_output self' (input_value m1 input) i
                              kInputDimensions))
              OutputDimensions) as (m' & Eloop & _ & Hval).
  - exact Hout.
  - intros i m0 Hi Hagree. cbn [AffineTransform.row].
    assert (Hsame : ∀ j, (j < kInputDimensions)%nat →
              m0 !! (input + Z.of_nat j) = m1 !! (input + Z.of_nat j))
      by (intros j Hj; apply Hagree, Hapart, Hj).
    rewrite (row_portable_unpadded _ OutputDimensions)
      by (try assumption; intros j Hj; rewrite Hsame by exact Hj; apply Hin, Hj).
    do 2 f_equal. unfold AffineTransform.affine_output. f_equal.
    apply weighted_sum_ext. intros j Hj.
    unfold AffineTransform.input_value. rewrite Hsame by exact Hj. reflexivity.
  - exists m'. rewrite Eloop. split; [reflexivity|].
    intros i Hi. rewrite (Hval i Hi), wrap32_idemp. do 2 f_equal.
    unfold AffineTransform.affine_output. f_equal.
    + unfold AffineTransform.bias_value, AffineTransform.bias_at,
        AffineTransform.BiasType, AffineTransform.OutputType. simpl sizeof.
      rewrite Hb, load_bytes_list by lia. rewrite (Nat.mul_comm i 4).
      reflexivity.
    + apply weighted_sum_ext. intros j Hj.
      unfold AffineTransform.weight_value, AffineTransform.weight_at.
      rewrite Hw. reflexivity.
Qed.

(** X10. A layer over no inputs. With [kInputDimensions] zero the padded
    length is zero too, no kernel reads the input vector, and every kernel
    stores the biases: [output[i]] is [bias[i]]. *)
Theorem Propagate_no_inputs kernel self transformed_features buffer m
    input m1 :
  kInputDimensions = 0%nat →
  well_sized self →
  Layer.Propagate (previous_layer_ self) transformed_features
    (buffer + Z.of_nat kSelfBufferSize) m = Some (input, m1) →
  output_mapped m1 buffer →
  ∃ m',
    Propagate kernel self transformed_features buffer m = Some (buffer, m') ∧
    ∀ i, (i < OutputDimensions)%nat →
      load_int32 m' (buffer + Z.of_nat (i * 4)) = Some (bias_value self i).
Proof.
  intros HI Hsized E Hout.
  assert (HP : kPaddedInputDimensions = 0%nat)
    by (unfold AffineTransform.kPaddedInputDimensions; rewrite HI; reflexivity).
  rewrite (Propagate_eq _ _ _ _ _ _ _ _ _ E).
  destruct (output_loop_values buffer m1
              (λ i m, row kernel self (λ j, m !! (input + Z.of_nat j)) i)
              (bias_value self) OutputDimensions) as (m' & Eloop & _ & Hval).
  - exact Hout.
  - intros i m0 Hi _.
    assert (Hnone : ∀ j, (j < kPaddedInputDimensions)%nat →
                         is_Some (m0 !! (input + Z.of_nat j)))
      by (intros j Hj; rewrite HP in Hj; lia).
    assert (Hsmall : ∀ j, (j < kPaddedInputDimensions)%nat →
              u8 (default x00 (m0 !! (input + Z.of_nat j))) ≤ 127)
      by (intros j Hj; rewrite HP in Hj; lia).
    assert (Hvalue : ∀ x n, n = 0%nat →
              wrap32 (affine_output self x i n) = bias_value self i).
    { intros x n ->. unfold AffineTransform.affine_output.
      cbn [weighted_sum]. rewrite Z.add_0_r. apply wrap32_id.
      apply (bias_value_range _ OutputDimensions); assumption. }
    destruct kernel; cbn [AffineTransform.row].
    + rewrite (row_avx2_closed _ OutputDimensions) by assumption.
      rewrite Hvalue by exact HP. reflexivity.
    + rewrite (row_ssse3_closed _ OutputDimensions) by assumption.
      rewrite Hvalue by exact HP. reflexivity.
    + rewrite (row_neon_closed _ OutputDimensions) by assumption.
      rewrite Hvalue by exact HP. reflexivity.
    + rewrite (row_portable_closed _ OutputDimensions) by assumption.
      rewrite Hvalue by exact HI. reflexivity.
  - exists m'. rewrite Eloop. split; [reflexivity|].
    intros i Hi. rewrite (Hval i Hi). f_equal. apply wrap32_id.
    apply (bias_value_range _ OutputDimensions); assumption.
Qed.

End Chain.

(** ** The structure string *)

Lemma append_assoc (s1 s2 s3 : string) :
  (s1 +:+ s2) +:+ s3 = s1 +:+ (s2 +:+ s3).
Proof.
  induction s1 as [|c s1 IH]; [reflexivity|].
  change (String c ((s1 +:+ s2) +:+ s3) = String c (s1 +:+ (s2 +:+ s3))).
  f_equal. exact IH.
Qed.

Lemma pretty_N_go_digits x : ∀ s, digits s → digits (pretty_N_go x s).
Proof.
  induction (N.lt_wf_0 x) as [x _ IH]. intros s Hs.
  destruct (decide (x = 0)%N) as [->|Hx]; [exact Hs|].
  rewrite pretty_N_go_step by lia. apply IH.
  - apply N.div_lt; lia.
  - split; [|exact Hs].
    pose proof (N.mod_lt x 10 ltac:(lia)) as Hm.
    generalize dependent (x `mod` 10)%N. intros r Hr.
    assert (r = 0 ∨ r = 1 ∨ r = 2 ∨ r = 3 ∨ r = 4 ∨ r = 5 ∨ r = 6 ∨ r = 7
            ∨ r = 8 ∨ r = 9)%N as Hcases by lia.
    repeat (destruct Hcases as [->|Hcases]; [vm_compute; lia|]).
    rewrite Hcases. vm_compute. lia.
Qed.

Lemma digits_to_string n : digits (to_string n).
Proof.
  unfold to_string, pretty, pretty_nat, pretty, pretty_N.
  destruct (decide _); [vm_compute; lia|]. apply pretty_N_go_digits. exact I.
Qed.

(** A numeral ends where the first character that is no digit stands. *)
Lemma digits_split c d1 : ∀ d2 r1 r2,
  ¬ (48 ≤ Ascii.nat_of_ascii c ≤ 57)%nat →
  digits d1 → digits d2 →
  d1 +:+ String c r1 = d2 +:+ String c r2 → d1 = d2 ∧ r1 = r2.
Proof.
  induction d1 as [|a d1 IH]; intros [|b d2] r1 r2 Hc H1 H2 E; cbn in E.
  - injection E as ->. auto.
  - injection E as -> _. destruct H2 as [H2 _]. contradiction.
  - injection E as -> _. destruct H1 as [H1 _]. contradiction.
  - injection E as -> E. destruct H1 as [_ H1]. destruct H2 as [_ H2].
    destruct (IH d2 r1 r2 Hc H1 H2 E) as [-> ->]. auto.
Qed.

Lemma append_char_inj c s1 : ∀ s2,
  s1 +:+ String c "" = s2 +:+ String c "" → s1 = s2.
Proof.
  induction s1 as [|a s1 IH]; intros [|b s2] E; cbn in E.
  - reflexivity.
  - injection E as _ E. destruct s2; discriminate.
  - injection E as _ E. destruct s1; discriminate.
  - injection E as -> E. f_equal. apply IH, E.
Qed.

(** X11. The structure string tells the shape: two layers with the same
    string have the same output dimensions, the same input dimensions and
    previous layers with the same string. *)
Theorem GetStructureString_inj
    (P1 P2 : Type) `{!Layer.t P1} `{!Layer.t P2}
    `{!Layout.t P1} `{!Layout.t P2} (O1 O2 : nat) :
  AffineTransformLayout.GetStructureString P1 O1
    = AffineTransformLayout.GetStructureString P2 O2 →
  O1 = O2
  ∧ AffineTransform.kInputDimensions P1 = AffineTransform.kInputDimensions P2
  ∧ Layout.GetStructureString (L := P1) = Layout.GetStructureString (L := P2).
Proof.
  unfold AffineTransformLayout.GetStructureString,
    AffineTransform.kOutputDimensions.
  rewrite !append_assoc. intros E.
  apply (inj (String.append "AffineTransform[")) in E.
  change ("<-" +:+ ?s) with (String "<"%char (String "-"%char s)) in E.
  apply digits_split in E as [EO E];
    [|vm_compute; lia|apply digits_to_string|apply digits_to_string].
  injection E as E.
  change ("](" +:+ ?s) with (String "]"%char (String "("%char s)) in E.
  apply digits_split in E as [EI E];
    [|vm_compute; lia|apply digits_to_string|apply digits_to_string].
  injection E as E. apply append_char_inj in E.
  split; [|split; [|exact E]].
  - apply (inj pretty) in EO. exact EO.
  - apply (inj pretty) in EI. exact EI.
Qed.

(** ** Concrete evaluations of the further properties *)

Lemma memory_unpadded_output_mapped x0 x1 :
  AffineTransform.output_mapped 1 (memory_unpadded x0 x1) 0.
Proof.
  refine (between_cases (λ a, is_Some (memory_unpadded x0 x1 !! a)) 0 4 _).
  cbn [seq]. repeat (apply Forall_cons_2; [vm_compute; eauto|]).
  apply Forall_nil_2.
Qed.

Lemma memory_unpadded_input_mapped x0 x1 :
  ∀ j, (j < AffineTransform.kInputDimensions (Source 2))%nat →
       is_Some (memory_unpadded x0 x1 !! (1000 + Z.of_nat j)).
Proof.
  refine (below_cases
            (λ j, is_Some (memory_unpadded x0 x1 !! (1000 + Z.of_nat j))) 2 _).
  cbn [seq]. repeat (apply Forall_cons_2; [vm_compute; eauto|]).
  apply Forall_nil_2.
Qed.

Lemma memory_unpadded_input_apart :
  ∀ j, (j < AffineTransform.kInputDimensions (Source 2))%nat →
       ¬ (0 ≤ 1000 + Z.of_nat j < 0 + Z.of_nat (1 * 4)).
Proof. intros j Hj. lia. Qed.

Lemma Source_writes_within_buffer dims : writes_within_buffer (Source dims).
Proof. intros l tf buffer m output m' [= _ <-] a _. reflexivity. Qed.

Lemma ReadParameters_keeps_sizes_witness :
  AffineTransform.well_sized (Source 2) 1
    (AffineTransform.ReadParameters (Source 2) 1 (layer_1x2 5 x01 x02)
       (file [x09; x08])).1.2.
Proof.
  apply (ReadParameters_keeps_sizes (Source 2) 1 (layer_1x2 5 x01 x02)
           (file [x09; x08])).
  apply layer_1x2_well_sized.
Defined.

(** The padding of the input vector is not mapped; the portable loop
    still gives [5 + 127 * 127 - 128 * 127 = -122]. *)
Lemma Propagate_portable_unpadded_witness :
  let self := layer_1x2 5 x7f x80 in
  let m := memory_unpadded x7f x7f in
  ∃ m', AffineTransform.Propagate (Source 2) 1 Portable self 1000 0 m
        = Some (0, m')
        ∧ load_int32 m' 0 = Some (- 122).
Proof.
  intros self m.
  assert (E : Layer.Propagate (AffineTransform.previous_layer_ (Source 2) self)
                1000 (0 + Z.of_nat (AffineTransform.kSelfBufferSize 1)) m
              = Some (1000, m)) by reflexivity.
  destruct (Propagate_portable_unpadded (Source 2) 1 self 1000 0 m 1000 m
              (layer_1x2_well_sized 5 x7f x80) E
              (memory_unpadded_input_mapped x7f x7f)
              (memory_unpadded_output_mapped x7f x7f)
              memory_unpadded_input_apart) as (m' & Ep & Hout).
  exists m'. split; [exact Ep|].
  pose proof (Hout 0%nat ltac:(lia)) as Hv.
  change (0 + Z.of_nat (0 * 4)) with 0 in Hv.
  rewrite Hv. reflexivity.
Defined.

Lemma Propagate_vector_padded_witness :
  let self := layer_1x2 5 x7f x80 in
  let m := memory_1x2 x7f x7f in
  ∃ m', AffineTransform.Propagate (Source 2) 1 NEON self 1000 0 m
        = Some (0, m')
        ∧ load_int32 m' 0 = Some (- 122).
Proof.
  intros self m.
  assert (E : Layer.Propagate (AffineTransform.previous_layer_ (Source 2) self)
                1000 (0 + Z.of_nat (AffineTransform.kSelfBufferSize 1)) m
              = Some (1000, m)) by reflexivity.
  assert (Hsmall : ∀ j, (j < AffineTransform.kPaddedInputDimensions (Source 2))%nat →
                        AffineTransform.input_value m 1000 j ≤ 127).
  { refine (below_cases _ 32 _). cbn [seq].
    repeat (apply Forall_cons_2; [vm_compute; discriminate|]).
    apply Forall_nil_2. }
  destruct (Propagate_vector_padded (Source 2) 1 NEON self 1000 0 m 1000 m
              ltac:(discriminate) (layer_1x2_well_sized 5 x7f x80) E
              (memory_1x2_input_mapped x7f x7f)
              (memory_1x2_output_mapped x7f x7f)
              memory_1x2_input_apart Hsmall) as (m' & Ep & Hout).
  exists m'. split; [exact Ep|].
  pose proof (Hout 0%nat ltac:(lia)) as Hv.
  change (0 + Z.of_nat (0 * 4)) with 0 in Hv.
  rewrite Hv. reflexivity.
Defined.

(** Activations 255 against weights 127: the first pair saturates at
    32767, and the row is [5 + 32767]. *)
Lemma x86_rows_saturate_witness :
  let self := layer_1x2 5 x7f x7f in
  let m := memory_1x2 xff xff in
  AffineTransform.row (Source 2) AVX2 self (λ j, m !! (1000 + Z.of_nat j)) 0
    = Some 32772
  ∧ AffineTransform.row (Source 2) SSSE3 self (λ j, m !! (1000 + Z.of_nat j)) 0
    = Some 32772.
Proof.
  intros self m.
  pose proof (λ kernel Hk,
    x86_rows_saturate (Source 2) 1 kernel self
      (λ j, m !! (1000 + Z.of_nat j)) 0 Hk
      (layer_1x2_well_sized 5 x7f x7f) ltac:(lia)
      (memory_1x2_input_mapped xff xff)) as Hrow.
  split.
  - rewrite (Hrow AVX2 (or_introl eq_refl)). reflexivity.
  - rewrite (Hrow SSSE3 (or_intror eq_refl)). reflexivity.
Defined.

Lemma Propagate_avx2_ssse3_witness :
  let self := layer_1x2 5 x7f x7f in
  let m := memory_1x2 xff xff in
  AffineTransform.Propagate (Source 2) 1 AVX2 self 1000 0 m
  = AffineTransform.Propagate (Source 2) 1 SSSE3 self 1000 0 m.
Proof.
  intros self m.
  assert (E : Layer.Propagate (AffineTransform.previous_layer_ (Source 2) self)
                1000 (0 + Z.of_nat (AffineTransform.kSelfBufferSize 1)) m
              = Some (1000, m)) by reflexivity.
  exact (Propagate_avx2_ssse3 (Source 2) 1 self 1000 0 m 1000 m
           (layer_1x2_well_sized 5 x7f x7f) E
           (memory_1x2_input_mapped xff xff)).
Defined.

(** Byte 5 of the input vector, a padding byte, is not mapped. *)
Lemma vector_rows_read_padding_witness :
  let self := layer_1x2 5 x7f x80 in
  let m := memory_unpadded x7f x7f in
  AffineTransform.row (Source 2) NEON self (λ j, m !! (1000 + Z.of_nat j)) 0
  = None.
Proof.
  intros self m.
  apply (vector_rows_read_padding (Source 2) NEON self
           (λ j, m !! (1000 + Z.of_nat j)) 0 5).
  - discriminate.
  - vm_compute. lia.
  - reflexivity.
Defined.

Lemma Propagate_within_buffer_witness :
  @writes_within_buffer (AffineTransform.t (Source 2))
    (AffineTransform.layer (Source 2) 1 AVX2).
Proof.
  apply (Propagate_within_buffer (Source 2) 1 AVX2).
  - cbn. lia.
  - apply Source_writes_within_buffer.
Defined.

Lemma kBufferSize_aligned_witness :
  (AffineTransform.kSelfBufferSize 1 `mod` 64 = 0)%nat
  ∧ (AffineTransform.kBufferSize (Source 2) 1 `mod` 64 = 0)%nat
  ∧ (0 ≤ AffineTransform.kBufferSize (Source 2) 1)%nat.
Proof.
  assert (Hc : (0 < kCacheLineSize)%nat) by (cbn; lia).
  assert (Hprev : (Layer.kBufferSize (L := Source 2) `mod` kCacheLineSize
                   = 0)%nat) by reflexivity.
  exact (kBufferSize_aligned (Source 2) 1 Hc Hprev).
Defined.

(** The bias [-2] and the weights [1, -1] are loaded; with the
    activations 3 and 5 the output is [-2 + 3 - 5 = -4]. *)
Lemma load_then_propagate_witness :
  let bs := [xfe; xff; xff; xff] in
  let ws := x01 :: xff :: replicate 30 x00 in
  let r := AffineTransform.ReadParameters (Source 2) 1 (layer_1x2 5 x00 x00)
             (file (bs ++ ws ++ [xaa])) in
  r.1.1 = true
  ∧ ∃ m', AffineTransform.Propagate (Source 2) 1 Portable r.1.2 1000 0
            (memory_unpadded x03 x05) = Some (0, m')
          ∧ load_int32 m' 0 = Some (- 4).
Proof.
  intros bs ws r.
  assert (E : Layer.ReadParameters
                (AffineTransform.previous_layer_ (Source 2)
                   (layer_1x2 5 x00 x00))
                (file (bs ++ ws ++ [xaa]))
              = (true, source 2, file (bs ++ ws ++ [xaa]))) by reflexivity.
  assert (Ep : Layer.Propagate (source 2) 1000
                 (0 + Z.of_nat (AffineTransform.kSelfBufferSize 1))
                 (memory_unpadded x03 x05)
               = Some (1000, memory_unpadded x03 x05)) by reflexivity.
  destruct (load_then_propagate (Source 2) 1 (layer_1x2 5 x00 x00)
              (file (bs ++ ws ++ [xaa])) (source 2)
              (file (bs ++ ws ++ [xaa])) bs ws [xaa]
              1000 0 (memory_unpadded x03 x05) 1000 (memory_unpadded x03 x05)
              (layer_1x2_well_sized 5 x00 x00) E eq_refl eq_refl eq_refl
              eq_refl Ep (memory_unpadded_input_mapped x03 x05)
              (memory_unpadded_output_mapped x03 x05)
              memory_unpadded_input_apart) as (Hok & m' & Eprop & Hout).
  split; [exact Hok|]. exists m'. split; [exact Eprop|].
  pose proof (Hout 0%nat ltac:(lia)) as Hv.
  change (0 + Z.of_nat (0 * 4)) with 0 in Hv.
  rewrite Hv. reflexivity.
Defined.

Lemma Propagate_no_inputs_witness :
  let self := layer_1x0 7 in
  let m := memory_unpadded x00 x00 in
  ∃ m', AffineTransform.Propagate (Source 0) 1 AVX2 self 1000 0 m
        = Some (0, m')
        ∧ load_int32 m' 0 = Some 7.
Proof.
  intros self m.
  assert (E : Layer.Propagate (AffineTransform.previous_layer_ (Source 0) self)
                1000 (0 + Z.of_nat (AffineTransform.kSelfBufferSize 1)) m
              = Some (1000, m)) by reflexivity.
  assert (Hsized : AffineTransform.well_sized (Source 0) 1 self)
    by (split; reflexivity).
  assert (HI : AffineTransform.kInputDimensions (Source 0) = 0%nat)
    by reflexivity.
  destruct (Propagate_no_inputs (Source 0) 1 AVX2 self 1000 0 m 1000 m
              HI Hsized E (memory_unpadded_output_mapped x00 x00))
    as (m' & Ep & Hout).
  exists m'. split; [exact Ep|].
  pose proof (Hout 0%nat ltac:(lia)) as Hv.
  change (0 + Z.of_nat (0 * 4)) with 0 in Hv.
  rewrite Hv. reflexivity.
Defined.

Lemma GetStructureString_inj_witness :
  AffineTransformLayout.GetStructureString (Source 2) 1
    = "AffineTransform[1<-2](InputSlice[2])"
  ∧ (1 = 1)%nat
  ∧ AffineTransform.kInputDimensions (Source 2) = 2%nat.
Proof.
  split; [reflexivity|].
  assert (E : AffineTransformLayout.GetStructureString (Source 2) 1
              = AffineTransformLayout.GetStructureString (Source 2) 1)
    by reflexivity.
  destruct (GetStructureString_inj (Source 2) (Source 2) 1 1 E)
    as (HO & HI & _).
  split; [exact HO | exact HI].
Defined.
